(** * sematrope: a superoptimizer on top of an SMT solver

    A verification development for [sematrope.cc].  The program builds
    SMT expressions (a symbolic straight-line program whose opcodes,
    register selectors and immediates are solver variables), asks the
    solver for a candidate that is right on the test cases seen so far,
    decodes the model into concrete instructions, and asks the solver for
    an input on which the candidate is wrong.

    The SMT expressions the program builds are data of the program, so
    they are embedded as syntax trees ([int_expr], [bv_expr], [bool_expr])
    with a denotation under an assignment of the solver constants.  A
    solver model is a finite map from constant names to values. *)

From Stdlib Require Import ZArith Lia List Bool Ascii String.
From Stdlib Require Import DecimalString HexadecimalString DecimalZ.
From Stdlib Require Import DecimalPos HexadecimalPos HexadecimalN.
From stdpp Require Import base option list strings gmap.

Local Open Scope string_scope.
Local Open Scope list_scope.
Local Open Scope Z_scope.

(** ** Machine words *)

(** [constexpr int REGISTER_WIDTH = 32;] *)
Definition REGISTER_WIDTH : Z := 32.

(** The number of values of a register, 2^32. *)
Definition modulus : Z := 2 ^ REGISTER_WIDTH.

(** Reduction of an integer to a register value. *)
Definition wrap (v : Z) : Z := v mod modulus.

(** [int] is a 32-bit two's complement integer. *)
Definition INT_MIN : Z := - 2 ^ 31.
Definition INT_MAX : Z := 2 ^ 31 - 1.
Definition fits_int (v : Z) : bool := (INT_MIN <=? v) && (v <=? INT_MAX).

(** [uint64] arithmetic wraps at 2^64. *)
Definition wrap64 (v : Z) : Z := v mod 2 ^ 64.

(** ** The instruction set *)

(** [enum class Opcode { SUB, AND, CMPEQ, LAST = CMPEQ }]: an
    enumeration over [int].  A value of the enumeration type is kept as
    its underlying integer, which is what lets [Insn::toString] have a
    [default:] branch. *)
Definition Opcode : Type := Z.
Definition SUB : Opcode := 0.
Definition AND : Opcode := 1.
Definition CMPEQ : Opcode := 2.
Definition LAST : Opcode := CMPEQ.

(** [struct Insn] *)
Record Insn : Type := mkInsn {
  insn_opcode : Opcode;
  insn_r1 : Z;
  insn_r2 : Z;
  insn_isImm : bool;
  insn_imm : Z
}.

(** ** SMT expressions *)

(** Expressions of sort Int: the program only builds integer constants
    (solver variables) and integer numerals. *)
Inductive int_expr : Type :=
| int_const (name : string)
| int_val (n : Z).

(** Expressions of sort BitVec[32] and of sort Bool. *)
Inductive bv_expr : Type :=
| bv_const (name : string)
| bv_val (v : Z)
| bv_sub (a b : bv_expr)
| bv_and (a b : bv_expr)
| bv_ite (c : bool_expr) (a b : bv_expr)
with bool_expr : Type :=
| int_eq (a b : int_expr)
| bv_eq (a b : bv_expr)
| bv_neq (a b : bv_expr)
| bv_ult (a b : bv_expr)
| bool_or (a b : bool_expr).

Scheme bv_expr_mut := Induction for bv_expr Sort Prop
with bool_expr_mut := Induction for bool_expr Sort Prop.
Combined Scheme expr_mutind from bv_expr_mut, bool_expr_mut.

(** An assignment gives every solver constant a value.  Constants of
    the two sorts used by the program never share a name, so one
    assignment serves both; a bit-vector constant takes its value
    reduced to the register width. *)
Definition assignment : Type := string -> Z.

Definition int_denote (rho : assignment) (e : int_expr) : Z :=
  match e with
  | int_const s => rho s
  | int_val n => n
  end.

Fixpoint bv_denote (rho : assignment) (e : bv_expr) : Z :=
  match e with
  | bv_const s => wrap (rho s)
  | bv_val v => wrap v
  | bv_sub a b => wrap (bv_denote rho a - bv_denote rho b)
  | bv_and a b => Z.land (bv_denote rho a) (bv_denote rho b)
  | bv_ite c a b => if bool_denote rho c then bv_denote rho a else bv_denote rho b
  end
with bool_denote (rho : assignment) (e : bool_expr) : bool :=
  match e with
  | int_eq a b => int_denote rho a =? int_denote rho b
  | bv_eq a b => bv_denote rho a =? bv_denote rho b
  | bv_neq a b => negb (bv_denote rho a =? bv_denote rho b)
  | bv_ult a b => bv_denote rho a <? bv_denote rho b
  | bool_or a b => bool_denote rho a || bool_denote rho b
  end.

(** ** Symbolic instructions *)

(** [struct SymbolicInsn]: the solver variables that define an
    instruction. *)
Record SymbolicInsn : Type := mkSymbolicInsn {
  opcode : int_expr;
  r1 : int_expr;
  r2 : int_expr;
  imm : bv_expr
}.

(** The constructor [SymbolicInsn(c, prefix)]. *)
Definition newSymbolicInsn (prefix : string) : SymbolicInsn :=
  {| opcode := int_const (prefix +:+ "_op");
     r1 := int_const (prefix +:+ "_r1");
     r2 := int_const (prefix +:+ "_r2");
     imm := bv_const (prefix +:+ "_imm") |}.

(** [bvConst(x, c)] is [c.bv_val(x, REGISTER_WIDTH)]. *)
Definition bvConst (x : Z) : bv_expr := bv_val x.

(** [boolToBv(b, c)] *)
Definition boolToBv (b : bool_expr) : bv_expr :=
  bv_ite b (bvConst 1) (bvConst 0).

(** [regs[j]] on a [std::vector<z3::expr>]; every access of the program
    is in range, the numeral 0 stands for the others. *)
Definition reg (regs : list bv_expr) (j : nat) : bv_expr :=
  nth j regs (bvConst 0).

(** The two selector loops of [eval],
    [for (int j = n - 1; j >= 0; --j) in = ite(sel == j, regs[j], in);]
    with [n = i] for the first operand and [n = i + 1] for the second. *)
Fixpoint select (sel : int_expr) (regs : list bv_expr) (n : nat)
    (acc : bv_expr) : bv_expr :=
  match n with
  | O => acc
  | S j => select sel regs j
             (bv_ite (int_eq sel (int_val (Z.of_nat j))) (reg regs j) acc)
  end.

Definition operand1 (insn : SymbolicInsn) (regs : list bv_expr) (i : nat) : bv_expr :=
  select (r1 insn) regs i (reg regs i).

Definition operand2 (insn : SymbolicInsn) (regs : list bv_expr) (i : nat) : bv_expr :=
  select (r2 insn) regs (S i) (imm insn).

(** The opcode dispatch of [eval]: SUB is the default. *)
Definition dispatch (op : int_expr) (in1 in2 : bv_expr) : bv_expr :=
  let result := bv_sub in1 in2 in
  let result := bv_ite (int_eq op (int_val AND)) (bv_and in1 in2) result in
  let result := bv_ite (int_eq op (int_val CMPEQ)) (boolToBv (bv_eq in1 in2)) result in
  result.

(** One turn of the loop of [eval]: the expression pushed on [regs]. *)
Definition eval_insn (insn : SymbolicInsn) (regs : list bv_expr) (i : nat) : bv_expr :=
  dispatch (opcode insn) (operand1 insn regs i) (operand2 insn regs i).

(** The loop of [eval] from index [i] on, with [insns] the instructions
    still to be processed. *)
Fixpoint eval_loop (insns : list SymbolicInsn) (i : nat) (regs : list bv_expr)
    : list bv_expr :=
  match insns with
  | [] => regs
  | insn :: rest => eval_loop rest (S i) (regs ++ [eval_insn insn regs i])
  end.

(** [eval(x, insns, c)]: the expression for the result of running the
    program in [insns] on the input [x]. *)
Definition eval (x : bv_expr) (insns : list SymbolicInsn) : bv_expr :=
  reg (eval_loop insns 0 [x]) (length insns).

(** [std::to_string(int)]: the decimal numeral of an [int]. *)
Definition to_string (n : Z) : string :=
  DecimalString.NilZero.string_of_int (Z.to_int n).

(** [insns.back()] *)
Definition back (insns : list SymbolicInsn) : SymbolicInsn :=
  List.last insns (newSymbolicInsn "").

(** The loop of [makeInsns]: a turn pushes the instruction with the
    prefix ["op" + to_string(i)] and the constraint on the immediate of
    [insns.back()], the instruction just pushed.  The counter [i] stays
    below [numInsns], an [int], so it never wraps. *)
Fixpoint makeInsns_loop (count : nat) (i : Z)
    (insns : list SymbolicInsn) (constraints : list bool_expr)
    : list SymbolicInsn * list bool_expr :=
  match count with
  | O => (insns, constraints)
  | S count' =>
      let insns := insns ++ [newSymbolicInsn ("op" +:+ to_string i)] in
      let constraints := constraints ++ [bv_ult (imm (back insns)) (bvConst 0xff)] in
      makeInsns_loop count' (i + 1) insns constraints
  end.

(** [makeInsns(numInsns, c)] *)
Definition makeInsns (numInsns : Z) : list SymbolicInsn * list bool_expr :=
  makeInsns_loop (Z.to_nat numInsns) 0 [] [].

(** ** Solver models *)

(** A model assigns values to some of the solver constants; the solver
    leaves out the constants it did not have to decide. *)
Abbreviation model := (gmap string Z).

(** An expression is ground: it has no solver constant. *)
Definition int_ground (e : int_expr) : bool :=
  match e with
  | int_const _ => false
  | int_val _ => true
  end.

Fixpoint bv_ground (e : bv_expr) : bool :=
  match e with
  | bv_const _ => false
  | bv_val _ => true
  | bv_sub a b => bv_ground a && bv_ground b
  | bv_and a b => bv_ground a && bv_ground b
  | bv_ite c a b => bool_ground c && bv_ground a && bv_ground b
  end
with bool_ground (e : bool_expr) : bool :=
  match e with
  | int_eq a b => int_ground a && int_ground b
  | bv_eq a b => bv_ground a && bv_ground b
  | bv_neq a b => bv_ground a && bv_ground b
  | bv_ult a b => bv_ground a && bv_ground b
  | bool_or a b => bool_ground a && bool_ground b
  end.

(** Replacing the constants a model assigns by their values. *)
Definition int_subst (m : model) (e : int_expr) : int_expr :=
  match e with
  | int_const s => match m !! s with Some v => int_val v | None => e end
  | int_val _ => e
  end.

Fixpoint bv_subst (m : model) (e : bv_expr) : bv_expr :=
  match e with
  | bv_const s => match m !! s with Some v => bv_val v | None => e end
  | bv_val _ => e
  | bv_sub a b => bv_sub (bv_subst m a) (bv_subst m b)
  | bv_and a b => bv_and (bv_subst m a) (bv_subst m b)
  | bv_ite c a b => bv_ite (bool_subst m c) (bv_subst m a) (bv_subst m b)
  end
with bool_subst (m : model) (e : bool_expr) : bool_expr :=
  match e with
  | int_eq a b => int_eq (int_subst m a) (int_subst m b)
  | bv_eq a b => bv_eq (bv_subst m a) (bv_subst m b)
  | bv_neq a b => bv_neq (bv_subst m a) (bv_subst m b)
  | bv_ult a b => bv_ult (bv_subst m a) (bv_subst m b)
  | bool_or a b => bool_or (bool_subst m a) (bool_subst m b)
  end.

(** [e.simplify()]: a ground expression is rewritten to its numeral.
    (The solver's simplifier also rewrites other expressions, without
    changing their meaning; the program only looks at numerals.) *)
Definition simplify (e : bv_expr) : bv_expr :=
  if bv_ground e then bv_val (bv_denote (fun _ => 0) e) else e.

(** [model.eval(e)], without model completion: the constants of the
    model are replaced by their values, the others stay, and the result
    is simplified. *)
Definition model_eval_int (m : model) (e : int_expr) : int_expr := int_subst m e.
Definition model_eval (m : model) (e : bv_expr) : bv_expr := simplify (bv_subst m e).

(** ** Exceptions *)

(** The result of a piece of code that may throw a [z3::exception] or
    call [abort()]. *)
Inductive result (A : Type) : Type :=
| Ok (a : A)
| Throw (msg : string)
| Abort.
Arguments Ok {A} a.
Arguments Throw {A} msg.
Arguments Abort {A}.

#[global] Instance result_bind : MBind result := fun A B k r =>
  match r with
  | Ok a => k a
  | Throw msg => Throw msg
  | Abort => Abort
  end.

(** [e.is_numeral()] *)
Definition is_numeral_int (e : int_expr) : bool := int_ground e.
Definition is_numeral (e : bv_expr) : bool :=
  match e with
  | bv_val _ => true
  | _ => false
  end.

(** [e.get_numeral_int()]: the value of an integer numeral as an [int].
    The solver's C++ interface ([z3++.h]) documents it as "return int
    value of numeral, throw if result cannot fit in machine int"; an
    integer of the solver is unbounded. *)
Definition get_numeral_int (e : int_expr) : result Z :=
  match e with
  | int_val n =>
      if fits_int n then Ok n else Throw "numeral does not fit in machine int"
  | int_const _ => Throw "numeral does not fit in machine int"
  end.

(** [e.get_numeral_uint64()]: a numeral of width 32 always fits a
    [uint64], and the accessor returns its value.  The other branch is
    modelled from the solver's C++ interface ([z3++.h]), which the
    repository does not contain: the accessor starts with
    [assert(is_numeral())], so on an expression that is not a numeral
    the assertion fails and the process is aborted.  No property below
    rests on that branch: they are about reads of numerals. *)
Definition get_numeral_uint64 (e : bv_expr) : result Z :=
  match e with
  | bv_val v => Ok (wrap v)
  | _ => Abort
  end.

(** [getIntDefault(e, d)] and [getUint64Default(e, d)] *)
Definition getIntDefault (e : int_expr) (d : Z) : result Z :=
  if is_numeral_int e then get_numeral_int e else Ok d.

Definition getUint64Default (e : bv_expr) (d : Z) : result Z :=
  if is_numeral e then get_numeral_uint64 e else Ok d.

(** ** Decoding a model *)

(** The body of the loop of [reconstructProgram] for instruction [i]. *)
Definition reconstructInsn (m : model) (insn : SymbolicInsn) (i : Z) : result Insn :=
  opcode ← getIntDefault (model_eval_int m (opcode insn)) 0;
  let insn_opcode := if (opcode <? 0) || (opcode >? LAST) then 0 else opcode in
  r1 ← getIntDefault (model_eval_int m (r1 insn)) 0;
  let insn_r1 := if (r1 <? 0) || (r1 >? i) then i else r1 in
  r2 ← getIntDefault (model_eval_int m (r2 insn)) 0;
  if (r2 <? 0) || (r2 >? i) then
    imm ← getUint64Default (model_eval m (imm insn)) 0;
    Ok (mkInsn insn_opcode insn_r1 0 true imm)
  else
    Ok (mkInsn insn_opcode insn_r1 r2 false 0).

Fixpoint reconstructProgram_loop (m : model) (insns : list SymbolicInsn) (i : Z)
    (program : list Insn) : result (list Insn) :=
  match insns with
  | [] => Ok program
  | insn :: rest =>
      decoded ← reconstructInsn m insn i;
      reconstructProgram_loop m rest (i + 1) (program ++ [decoded])
  end.

(** [reconstructProgram(insns, model)] *)
Definition reconstructProgram (insns : list SymbolicInsn) (m : model)
    : result (list Insn) :=
  reconstructProgram_loop m insns 0 [].

(** ** Printing *)

(** [hex(x)]: the lower-case hexadecimal numeral of [uint64_t(x)]. *)
Definition hex (x : Z) : string :=
  HexadecimalString.NilZero.string_of_uint (N.to_hex_uint (Z.to_N (wrap64 x))).

(** [Insn::toString(dest)]; the [default:] branch of the [switch] calls
    [abort()]. *)
Definition toString (insn : Insn) (dest : Z) : result string :=
  s ← (if insn_opcode insn =? SUB then Ok "sub"
        else if insn_opcode insn =? AND then Ok "and"
        else if insn_opcode insn =? CMPEQ then Ok "cmpeq"
        else Abort);
  let s := s +:+ " r" +:+ to_string (insn_r1 insn) +:+ ", " in
  let s := if insn_isImm insn then s +:+ "0x" +:+ hex (insn_imm insn)
           else s +:+ "r" +:+ to_string (insn_r2 insn) in
  Ok (s +:+ ", r" +:+ to_string dest).

(** The printing loops of [main]:
    [for (i = 0; i < program.size(); ++i) ... program[i].toString(i + 1)]. *)
Fixpoint printProgram (program : list Insn) (i : Z) : result (list string) :=
  match program with
  | [] => Ok []
  | insn :: rest =>
      line ← toString insn (i + 1);
      lines ← printProgram rest (i + 1);
      Ok (line :: lines)
  end.

(** ** The target *)

(** The loop of [isPowerOfTwoOrZero]: [r = r || (x == bvConst(p)); p <<= 1]
    with [p] a [uint64]. *)
Fixpoint isPowerOfTwoOrZero_loop (count : nat) (x : bv_expr) (r : bool_expr) (p : Z)
    : bool_expr :=
  match count with
  | O => r
  | S count' =>
      isPowerOfTwoOrZero_loop count' x (bool_or r (bv_eq x (bvConst p)))
        (wrap64 (Z.shiftl p 1))
  end.

(** [isPowerOfTwoOrZero(x, c)]; [x == 0] compares with the numeral 0 of
    the sort of [x]. *)
Definition isPowerOfTwoOrZero (x : bv_expr) : bv_expr :=
  boolToBv (isPowerOfTwoOrZero_loop (Z.to_nat REGISTER_WIDTH) x (bv_eq x (bv_val 0)) 1).

(** ** The search *)

(** The answer of [solver.check()], with the model of
    [solver.get_model()] when the answer is [sat]. *)
Inductive check_result : Type :=
| sat (m : model)
| unsat
| unknown.

(** What a turn of the [while (true)] loop of [main] leads to: the
    [break] to the next number of instructions, another turn after
    [testCases.push_back(t)], or the [return 0] after the program has
    been written on [std::cout]. *)
Inductive step : Type :=
| NextSize
| NextTestCase (t : Z)
| Done (stdout : list string).

(** How the process ends: [main] returns a code, with what it wrote on
    [std::cout] and the message of the exception it caught, if any; or
    the process is killed by [abort()]. *)
Inductive outcome : Type :=
| Exit (code : Z) (stdout : list string) (caught : option string)
| Aborted.

(** [const auto targetProgram = isPowerOfTwoOrZero;] *)
Definition targetProgram : bv_expr -> bv_expr := isPowerOfTwoOrZero.

(** [c.bv_const("x", REGISTER_WIDTH)] *)
Definition x_const : bv_expr := bv_const "x".

(** The assertions of the test cases:
    [programResult == bvConst(correctResult, c)] for each [t]. *)
Fixpoint testAssertions (insns : list SymbolicInsn) (testCases : list Z)
    : result (list bool_expr) :=
  match testCases with
  | [] => Ok []
  | t :: rest =>
      correctResult ← get_numeral_uint64 (simplify (targetProgram (bvConst t)));
      let programResult := eval (bvConst t) insns in
      others ← testAssertions insns rest;
      Ok (bv_eq programResult (bvConst correctResult) :: others)
  end.

(** The assertion of the counterexample query. *)
Definition ceAssertion (solutionProgram : bv_expr) : bool_expr :=
  bv_neq solutionProgram (targetProgram x_const).

Section Main.

(** The two solvers, as functions from the assertions added to the
    answer of [check()]. *)
Variable solver_check : list bool_expr -> check_result.
Variable cesolver_check : list bool_expr -> check_result.

(** The body of the [while (true)] loop of [main]. *)
Definition iteration (numInsns : Z) (testCases : list Z) : result step :=
  let '(insns, constraints) := makeInsns numInsns in
  tests ← testAssertions insns testCases;
  match solver_check (constraints ++ tests) with
  | unknown => Throw "unexpected check value"
  | unsat => Ok NextSize
  | sat m =>
      let solutionProgram := model_eval m (eval x_const insns) in
      program ← reconstructProgram insns m;
      _ ← printProgram program 0;
      match cesolver_check [ceAssertion solutionProgram] with
      | unknown => Throw "unexpected check value"
      | unsat =>
          lines ← printProgram program 0;
          Ok (Done lines)
      | sat cemodel =>
          t ← get_numeral_uint64 (model_eval cemodel x_const);
          _ ← get_numeral_uint64 (model_eval cemodel solutionProgram);
          _ ← get_numeral_uint64 (simplify (targetProgram (bvConst t)));
          Ok (NextTestCase t)
      end
  end.

(** The two nested loops of [main]; [fuel] bounds the number of turns
    of the inner loop, and the search that has not ended within [fuel]
    turns gives [None]. *)
Fixpoint search (fuel : nat) (numInsns : Z) (testCases : list Z)
    : option (result (list string)) :=
  match fuel with
  | O => None
  | S fuel' =>
      match iteration numInsns testCases with
      | Ok NextSize => search fuel' (numInsns + 1) testCases
      | Ok (NextTestCase t) => search fuel' numInsns (testCases ++ [t])
      | Ok (Done stdout) => Some (Ok stdout)
      | Throw msg => Some (Throw msg)
      | Abort => Some Abort
      end
  end.

(** [main()]: the [catch] clause prints the message and falls through
    to the [return 0] at the end. *)
Definition main (fuel : nat) : option outcome :=
  match search fuel 1 [] with
  | None => None
  | Some (Ok stdout) => Some (Exit 0 stdout None)
  | Some (Throw msg) => Some (Exit 0 [] (Some msg))
  | Some Abort => Some Aborted
  end.

End Main.

(** ** Concrete semantics *)

(** Modelled from the spec: the concrete evaluator [eval_op(op, a, b)]
    of the instruction set model, which the source does not have.
    [SUB(a,b) = a - b] with wraparound, [AND(a,b)] is the bitwise and,
    [CMPEQ(a,b)] is 1 if [a = b] else 0, and [SUB] is the choice for an
    opcode value outside the enumeration. *)
Definition eval_op (op : Opcode) (a b : Z) : Z :=
  if op =? AND then Z.land a b
  else if op =? CMPEQ then (if a =? b then 1 else 0)
  else wrap (a - b).

(** Modelled from the spec: running a concrete instruction on the
    register file.  [r1] names the source of the first operand, the
    second operand is the register [r2] or the immediate. *)
Definition run_insn (regs : list Z) (insn : Insn) : Z :=
  let a := nth (Z.to_nat (insn_r1 insn)) regs 0 in
  let b := if insn_isImm insn then wrap (insn_imm insn)
           else nth (Z.to_nat (insn_r2 insn)) regs 0 in
  eval_op (insn_opcode insn) a b.

(** Modelled from the spec: register 0 is the input, register [k > 0]
    is the output of instruction [k - 1], and the program's result is
    the last register. *)
Fixpoint run_loop (program : list Insn) (regs : list Z) : list Z :=
  match program with
  | [] => regs
  | insn :: rest => run_loop rest (regs ++ [run_insn regs insn])
  end.

Definition Evaluator_concrete (x : Z) (program : list Insn) : Z :=
  nth (length program) (run_loop program [wrap x]) 0.

(** The target as a function on register values, in the words of the
    spec: [widen(x = 0 \/ x = 2^0 \/ ... \/ x = 2^31)]. *)
Definition spec_isPowerOfTwoOrZero (x : Z) : Z :=
  if (x =? 0) || existsb (fun i => x =? 2 ^ Z.of_nat i) (seq 0 32) then 1 else 0.

(** The number of bits set in a register value. *)
Definition popcount (x : Z) : nat :=
  length (List.filter (fun i => Z.testbit x (Z.of_nat i)) (seq 0 32)).

(** ** The value an assignment and a model give together *)

(** The model's value where it has one, the assignment's elsewhere. *)
Definition override (m : model) (rho : assignment) : assignment :=
  fun s => match m !! s with Some v => v | None => rho s end.

(** Model completion with 0. *)
Definition complete (m : model) : assignment := override m (fun _ => 0).

(** An assignment agrees with a model. *)
Definition extends (rho : assignment) (m : model) : Prop :=
  forall s v, m !! s = Some v -> rho s = v.

(** All assertions hold under an assignment. *)
Definition holds (rho : assignment) (assertions : list bool_expr) : bool :=
  forallb (bool_denote rho) assertions.

(** ** Decoding, in the words of the spec *)

(** The selectors' range [[0..i]]. *)
Definition in_range (v i : Z) : bool := (0 <=? v) && (v <=? i).

(** The instruction that the spec's program decoding gives for slot [i]
    when the model's values of the slot's variables are [op], [r1], [r2]
    and [imm]: an opcode outside [[0..LAST]] is SUB, an [r1] outside
    [[0..i]] is [i], an [r2] outside [[0..i]] selects the immediate. *)
Definition decode (i op r1 r2 imm : Z) : Insn :=
  {| insn_opcode := if in_range op LAST then op else SUB;
     insn_r1 := if in_range r1 i then r1 else i;
     insn_r2 := if in_range r2 i then r2 else 0;
     insn_isImm := negb (in_range r2 i);
     insn_imm := if in_range r2 i then 0 else imm |}.

(** The values of the three selectors of a slot fit an [int], with the
    variables the model leaves out read as 0. *)
Definition selectors_fit (m : model) (insn : SymbolicInsn) : Prop :=
  fits_int (int_denote (complete m) (opcode insn)) = true /\
  fits_int (int_denote (complete m) (r1 insn)) = true /\
  fits_int (int_denote (complete m) (r2 insn)) = true.

(** Instruction [i] of a program is well formed. *)
Definition well_formed (insn : Insn) (i : Z) : Prop :=
  (insn_opcode insn = SUB \/ insn_opcode insn = AND \/ insn_opcode insn = CMPEQ) /\
  0 <= insn_r1 insn <= i /\
  (insn_isImm insn = true /\ insn_r2 insn = 0 \/
   insn_isImm insn = false /\ 0 <= insn_r2 insn <= i /\ insn_imm insn = 0).

(** A register value is zero or a power of two. *)
Definition power_of_two_or_zero (v : Z) : Prop :=
  v = 0 \/ exists i, 0 <= i <= 31 /\ v = 2 ^ i.

(** ** The names of the variables *)

(** The names of the solver constants of an expression. *)
Definition int_names (e : int_expr) : list string :=
  match e with
  | int_const s => [s]
  | int_val _ => []
  end.

Fixpoint bv_names (e : bv_expr) : list string :=
  match e with
  | bv_const s => [s]
  | bv_val _ => []
  | bv_sub a b => bv_names a ++ bv_names b
  | bv_and a b => bv_names a ++ bv_names b
  | bv_ite c a b => bool_names c ++ bv_names a ++ bv_names b
  end
with bool_names (e : bool_expr) : list string :=
  match e with
  | int_eq a b => int_names a ++ int_names b
  | bv_eq a b => bv_names a ++ bv_names b
  | bv_neq a b => bv_names a ++ bv_names b
  | bv_ult a b => bv_names a ++ bv_names b
  | bool_or a b => bool_names a ++ bool_names b
  end.

(** The names of the four variables of a symbolic instruction. *)
Definition insn_names (insn : SymbolicInsn) : list string :=
  int_names (opcode insn) ++ int_names (r1 insn) ++ int_names (r2 insn)
  ++ bv_names (imm insn).

(** The symbolic instruction number [k] of [makeInsns]. *)
Definition slot (k : nat) : SymbolicInsn :=
  newSymbolicInsn ("op" +:+ to_string (Z.of_nat k)).

(** The immediate of a symbolic instruction is a variable or a numeral,
    as the constructor of [SymbolicInsn] makes it. *)
Definition atomic (e : bv_expr) : Prop :=
  match e with
  | bv_const _ | bv_val _ => True
  | _ => False
  end.

(** An assignment gives the variables of a symbolic instruction the
    values the decoder reads from the model. *)
Definition reads_as (rho : assignment) (m : model) (insn : SymbolicInsn) : Prop :=
  int_denote rho (opcode insn) = int_denote (complete m) (opcode insn) /\
  int_denote rho (r1 insn) = int_denote (complete m) (r1 insn) /\
  int_denote rho (r2 insn) = int_denote (complete m) (r2 insn) /\
  bv_denote rho (imm insn) = bv_denote (complete m) (imm insn).

(** The assignment that gives the input variable the value [v] and 0
    to every other variable. *)
Definition input (v : Z) : assignment :=
  fun s => if String.eqb s "x" then v else 0.

(** ** Solvers and runs *)

(** A solver whose [unsat] answers are right: no assignment makes all
    the assertions true. *)
Definition unsat_sound (check : list bool_expr -> check_result) : Prop :=
  forall q, check q = unsat -> forall rho, holds rho q = false.

(** A solver whose [sat] answers are right: the model assigns only
    variables of the assertions, and every assignment that agrees with
    the model makes all the assertions true. *)
Definition sat_sound (check : list bool_expr -> check_result) : Prop :=
  forall q m, check q = sat m ->
    (forall s, is_Some (m !! s) -> In s (flat_map bool_names q)) /\
    (forall rho, extends rho m -> holds rho q = true).

(** The states of the search that [main] reaches: the number of
    instructions and the test cases at the start of a turn. *)
Inductive reachable (solver_check cesolver_check : list bool_expr -> check_result)
    : Z -> list Z -> Prop :=
| reachable_start : reachable solver_check cesolver_check 1 []
| reachable_size N tests :
    reachable solver_check cesolver_check N tests ->
    iteration solver_check cesolver_check N tests = Ok NextSize ->
    reachable solver_check cesolver_check (N + 1) tests
| reachable_test N tests t :
    reachable solver_check cesolver_check N tests ->
    iteration solver_check cesolver_check N tests = Ok (NextTestCase t) ->
    reachable solver_check cesolver_check N (tests ++ [t]).

(** In the turn that starts in a state, a check answers neither [sat]
    nor [unsat]: the check of the synthesis query, or the check of the
    counterexample query for the model found. *)
Definition check_unknown (solver_check cesolver_check : list bool_expr -> check_result)
    (N : Z) (tests : list Z) : Prop :=
  exists assertions,
    testAssertions (fst (makeInsns N)) tests = Ok assertions /\
    (solver_check (snd (makeInsns N) ++ assertions) = unknown \/
     exists m program,
       solver_check (snd (makeInsns N) ++ assertions) = sat m /\
       reconstructProgram (fst (makeInsns N)) m = Ok program /\
       cesolver_check
         [ceAssertion (model_eval m (eval x_const (fst (makeInsns N))))] = unknown).

(** A model assigns all the variables of the symbolic instructions. *)
Definition total_on (m : model) (insns : list SymbolicInsn) : Prop :=
  forall s, In s (flat_map insn_names insns) -> is_Some (m !! s).

(** The value of the target on the input [t]: what the expression
    [targetProgram(bvConst(t, c), c)] evaluates to. *)
Definition target_value (t : Z) : Z :=
  bv_denote (fun _ => 0) (targetProgram (bvConst t)).

(** ** Solvers for examples *)

(** Syntactic equality of expressions and of queries. *)
Definition int_expr_eqb (a b : int_expr) : bool :=
  match a, b with
  | int_const s, int_const s' => String.eqb s s'
  | int_val n, int_val n' => n =? n'
  | _, _ => false
  end.

Fixpoint bv_expr_eqb (a b : bv_expr) : bool :=
  match a, b with
  | bv_const s, bv_const s' => String.eqb s s'
  | bv_val v, bv_val v' => v =? v'
  | bv_sub a1 a2, bv_sub b1 b2 => bv_expr_eqb a1 b1 && bv_expr_eqb a2 b2
  | bv_and a1 a2, bv_and b1 b2 => bv_expr_eqb a1 b1 && bv_expr_eqb a2 b2
  | bv_ite c a1 a2, bv_ite c' b1 b2 =>
      bool_expr_eqb c c' && bv_expr_eqb a1 b1 && bv_expr_eqb a2 b2
  | _, _ => false
  end
with bool_expr_eqb (a b : bool_expr) : bool :=
  match a, b with
  | int_eq a1 a2, int_eq b1 b2 => int_expr_eqb a1 b1 && int_expr_eqb a2 b2
  | bv_eq a1 a2, bv_eq b1 b2 => bv_expr_eqb a1 b1 && bv_expr_eqb a2 b2
  | bv_neq a1 a2, bv_neq b1 b2 => bv_expr_eqb a1 b1 && bv_expr_eqb a2 b2
  | bv_ult a1 a2, bv_ult b1 b2 => bv_expr_eqb a1 b1 && bv_expr_eqb a2 b2
  | bool_or a1 a2, bool_or b1 b2 => bool_expr_eqb a1 b1 && bool_expr_eqb a2 b2
  | _, _ => false
  end.

Fixpoint query_eqb (q q' : list bool_expr) : bool :=
  match q, q' with
  | [], [] => true
  | b :: q, b' :: q' => bool_expr_eqb b b' && query_eqb q q'
  | _, _ => false
  end.

(** A solver that answers one query, and [otherwise] on the others. *)
Definition answers (q0 : list bool_expr) (r otherwise : check_result)
    : list bool_expr -> check_result :=
  fun q => if query_eqb q q0 then r else otherwise.

(** The first turn of [main]: the model of the empty synthesis query
    assigns the immediate only, and the counterexample solver picks
    values for the other variables of the instruction. *)
Definition first_model : model := list_to_map [ ("op0_imm", 0) ].

Definition first_cemodel : model :=
  list_to_map [ ("op0_op", 2); ("op0_r2", 0); ("x", 3) ].

Definition first_program : list Insn := [ mkInsn SUB 0 0 false 0 ].

Definition first_solver : list bool_expr -> check_result :=
  answers (snd (makeInsns 1)) (sat first_model) unknown.

Definition first_cesolver : list bool_expr -> check_result :=
  answers [ceAssertion (model_eval first_model (eval x_const (fst (makeInsns 1))))]
    (sat first_cemodel) unknown.

(** A model of the three-instruction program
    [sub r0, 0x1, r1; and r1, r0, r2; cmpeq r2, 0x0, r3]. *)
Definition final_model : model :=
  list_to_map
    [ ("op0_op", 0); ("op0_r1", 0); ("op0_r2", -1); ("op0_imm", 1);
      ("op1_op", 1); ("op1_r1", 1); ("op1_r2", 0); ("op1_imm", 0);
      ("op2_op", 2); ("op2_r1", 2); ("op2_r2", -1); ("op2_imm", 0) ].

Definition final_program : list Insn :=
  [ mkInsn SUB 0 0 true 1; mkInsn AND 1 0 false 0; mkInsn CMPEQ 2 0 true 0 ].

(** A synthesis solver that finds no program of length 1 or 2 and the
    model above at length 3, and a counterexample solver that finds no
    counterexample for it. *)
Definition final_solver : list bool_expr -> check_result :=
  answers (snd (makeInsns 3)) (sat final_model) unsat.

Definition final_cesolver : list bool_expr -> check_result :=
  answers [ceAssertion (model_eval final_model (eval x_const (fst (makeInsns 3))))]
    unsat unknown.

(** ** Vocabulary of the further properties *)

(** The messages of the exceptions that [main] catches when the reads
    of the counterexample model are numerals: the one it throws itself
    and the one of [get_numeral_int]. *)
Definition messages : list string :=
  [ "unexpected check value";
    "numeral does not fit in machine int" ].

(** A solver whose models are complete: a model it returns assigns
    every variable of its query. *)
Definition sat_complete (check : list bool_expr -> check_result) : Prop :=
  forall q m, check q = sat m ->
    forall s, In s (flat_map bool_names q) -> is_Some (m !! s).

(** A model of the one-instruction program [sub r0, r0, r1], for the
    test case 3, and a solver that answers it to the synthesis query
    of that test case. *)
Definition second_model : model :=
  list_to_map [ ("op0_op", 0); ("op0_r2", 0); ("op0_imm", 0) ].

Definition second_query : list bool_expr :=
  snd (makeInsns 1) ++
  [bv_eq (eval (bvConst 3) (fst (makeInsns 1))) (bvConst (target_value 3))].

Definition second_solver : list bool_expr -> check_result :=
  answers second_query (sat second_model) unknown.

(** The text of an instruction, piece by piece. *)
Definition mnemonic (op : Opcode) : string :=
  if op =? SUB then "sub" else if op =? AND then "and" else "cmpeq".

Definition operand_text (insn : Insn) : string :=
  if insn_isImm insn then "0x" +:+ hex (insn_imm insn)
  else "r" +:+ to_string (insn_r2 insn).

(** An instruction as the decoder makes it: the field that is not
    printed is 0, and an immediate is a register value. *)
Definition canonical (insn : Insn) : Prop :=
  (insn_isImm insn = true /\ insn_r2 insn = 0 /\ 0 <= insn_imm insn < modulus) \/
  (insn_isImm insn = false /\ insn_imm insn = 0).

(** The model that stands for a program: for instruction [k], the
    opcode, the first source, the second source or, for an immediate,
    -1, which is outside every range, and the immediate. *)
Definition encode_insn (k : nat) (insn : Insn) : list (string * Z) :=
  let prefix := "op" +:+ to_string (Z.of_nat k) in
  [ (prefix +:+ "_op", insn_opcode insn);
    (prefix +:+ "_r1", insn_r1 insn);
    (prefix +:+ "_r2", if insn_isImm insn then -1 else insn_r2 insn);
    (prefix +:+ "_imm", insn_imm insn) ].

Fixpoint encode_from (k : nat) (program : list Insn) : list (string * Z) :=
  match program with
  | [] => []
  | insn :: rest => encode_insn k insn ++ encode_from (S k) rest
  end.

Definition encode (program : list Insn) : model :=
  list_to_map (encode_from 0 program).

(** The assertion that [main] adds for the test case [t]. *)
Definition testAssertion (insns : list SymbolicInsn) (t : Z) : bool_expr :=
  bv_eq (eval (bvConst t) insns) (bvConst (target_value t)).

(** A solver that answers the queries of a list, and unknown to every
    other query. *)
Definition script (answers : list (list bool_expr * check_result))
    : list bool_expr -> check_result :=
  fun q =>
    match find (fun entry => query_eqb q (fst entry)) answers with
    | Some entry => snd entry
    | None => unknown
    end.

(** A search over the programs of one instruction: three candidates,
    [sub r0, r0, r1] read from a model of the immediate alone,
    [cmpeq r0, 0x0, r1] and [cmpeq r0, r0, r1], each refuted by a
    counterexample, and then no candidate for the test cases 0, 1, 3. *)
Definition short_query (tests : list Z) : list bool_expr :=
  snd (makeInsns 1) ++ map (testAssertion (fst (makeInsns 1))) tests.

Definition short_model_1 : model := list_to_map [ ("op0_imm", 0) ].
Definition short_model_2 : model :=
  list_to_map [ ("op0_op", 2); ("op0_r2", -1); ("op0_imm", 0) ].
Definition short_model_3 : model :=
  list_to_map [ ("op0_op", 2); ("op0_r2", 0); ("op0_imm", 0) ].

Definition short_solver : list bool_expr -> check_result :=
  script [ (short_query [], sat short_model_1);
           (short_query [0], sat short_model_2);
           (short_query [0; 1], sat short_model_3);
           (short_query [0; 1; 3], unsat) ].

Definition short_ce_query (m : model) : list bool_expr :=
  [ceAssertion (model_eval m (eval x_const (fst (makeInsns 1))))].

Definition short_cemodel_1 : model :=
  list_to_map [ ("op0_op", 1); ("op0_r2", 0); ("x", 0) ].
Definition short_cemodel_2 : model := list_to_map [ ("x", 1) ].
Definition short_cemodel_3 : model := list_to_map [ ("x", 3) ].

Definition short_cesolver : list bool_expr -> check_result :=
  script [ (short_ce_query short_model_1, sat short_cemodel_1);
           (short_ce_query short_model_2, sat short_cemodel_2);
           (short_ce_query short_model_3, sat short_cemodel_3) ].

(** * Properties *)

(** ** Examples *)

Example makeInsns_1 :
  makeInsns 1 = ([newSymbolicInsn "op0"], [bv_ult (bv_const "op0_imm") (bv_val 255)]).
Proof. reflexivity. Qed.

Example eval_1 :
  eval x_const (fst (makeInsns 1)) =
  dispatch (int_const "op0_op") x_const
    (bv_ite (int_eq (int_const "op0_r2") (int_val 0)) x_const (bv_const "op0_imm")).
Proof. reflexivity. Qed.

Example toString_imm : toString (mkInsn SUB 0 0 true 255) 1 = Ok "sub r0, 0xff, r1".
Proof. reflexivity. Qed.

Example toString_reg : toString (mkInsn CMPEQ 2 1 false 0) 3 = Ok "cmpeq r2, r1, r3".
Proof. reflexivity. Qed.

Example toString_default : toString (mkInsn 3 0 0 false 0) 1 = Abort.
Proof. reflexivity. Qed.

Example reconstructProgram_empty_model :
  reconstructProgram (fst (makeInsns 2)) ∅ =
  Ok [mkInsn SUB 0 0 false 0; mkInsn SUB 0 0 false 0].
Proof. reflexivity. Qed.

Example reconstructProgram_out_of_range :
  reconstructProgram (fst (makeInsns 1))
    (list_to_map [("op0_op", 7); ("op0_r1", 5); ("op0_r2", -1); ("op0_imm", 9)]) =
  Ok [mkInsn SUB 0 0 true 9].
Proof. reflexivity. Qed.

Example isPowerOfTwoOrZero_values :
  map (fun t => bv_denote (fun _ => 0) (isPowerOfTwoOrZero (bvConst t)))
    [0; 1; 2; 3; 4; 6; 2 ^ 31; 2 ^ 32 - 1] = [1; 1; 1; 0; 1; 0; 1; 0].
Proof. reflexivity. Qed.

Example final_program_run :
  map (fun t => Evaluator_concrete t final_program) [0; 1; 2; 3; 4; 6; 2 ^ 31]
  = [1; 1; 1; 0; 1; 0; 1].
Proof. reflexivity. Qed.

(** ** The symbolic evaluator *)

(** Case analysis on the integer comparisons of the goal. *)
Ltac zcases :=
  repeat match goal with
  | |- context [?a <=? ?b] => destruct (Z.leb_spec0 a b)
  | |- context [?a <? ?b] => destruct (Z.ltb_spec0 a b)
  | |- context [?a >? ?b] => rewrite (Z.gtb_ltb a b)
  | |- context [?a =? ?b] => destruct (Z.eqb_spec a b)
  end; cbn [andb orb negb]; try lia.

Section Evaluator.

Variable rho : assignment.

Lemma wrap_range v : 0 <= wrap v < modulus.
Proof. unfold wrap. apply Z.mod_pos_bound. reflexivity. Qed.

Lemma wrap_small v : 0 <= v < modulus -> wrap v = v.
Proof. intros H. unfold wrap. now apply Z.mod_small. Qed.

Lemma bv_denote_range e : 0 <= bv_denote rho e < modulus.
Proof.
  induction e using bv_expr_mut
    with (P0 := fun _ => True); simpl; auto using wrap_range.
  - split.
    + apply Z.land_nonneg. lia.
    + destruct (Z.eq_dec (Z.land (bv_denote rho e1) (bv_denote rho e2)) 0) as [->|Hne];
        [reflexivity|].
      apply Z.log2_lt_cancel.
      eapply Z.le_lt_trans; [apply Z.log2_land; lia|].
      apply Z.min_lt_iff. left.
      destruct (Z.eq_dec (bv_denote rho e1) 0) as [E|E].
      * rewrite E in Hne. rewrite Z.land_0_l in Hne. congruence.
      * apply Z.log2_lt_pow2; [lia|]. change (2 ^ Z.log2 modulus) with modulus. lia.
  - destruct (bool_denote rho c); assumption.
Qed.

(** The selector cascade picks [regs[v]] when the selector's value
    [v] is one of the [n] indices it tests, and its default else. *)
Lemma select_denote sel regs n acc :
  bv_denote rho (select sel regs n acc) =
  if (0 <=? int_denote rho sel) && (int_denote rho sel <? Z.of_nat n)
  then bv_denote rho (reg regs (Z.to_nat (int_denote rho sel)))
  else bv_denote rho acc.
Proof.
  revert acc. induction n as [|j IH]; intros acc.
  - simpl. zcases; reflexivity.
  - cbn [select]. rewrite IH. cbn [bv_denote bool_denote int_denote].
    zcases; try reflexivity.
    replace (Z.to_nat (int_denote rho sel)) with j by lia. reflexivity.
Qed.

Lemma operand1_denote insn regs i :
  bv_denote rho (operand1 insn regs i) =
  if (0 <=? int_denote rho (r1 insn)) && (int_denote rho (r1 insn) <=? Z.of_nat i)
  then bv_denote rho (reg regs (Z.to_nat (int_denote rho (r1 insn))))
  else bv_denote rho (reg regs i).
Proof.
  unfold operand1. rewrite select_denote. zcases; try reflexivity.
  replace (Z.to_nat (int_denote rho (r1 insn))) with i by lia. reflexivity.
Qed.

Lemma operand2_denote insn regs i :
  bv_denote rho (operand2 insn regs i) =
  if (0 <=? int_denote rho (r2 insn)) && (int_denote rho (r2 insn) <=? Z.of_nat i)
  then bv_denote rho (reg regs (Z.to_nat (int_denote rho (r2 insn))))
  else bv_denote rho (imm insn).
Proof.
  unfold operand2. rewrite select_denote. zcases; reflexivity.
Qed.

Lemma dispatch_denote op in1 in2 :
  bv_denote rho (dispatch op in1 in2) =
  eval_op (int_denote rho op) (bv_denote rho in1) (bv_denote rho in2).
Proof.
  unfold dispatch, eval_op, boolToBv, bvConst. cbn [bv_denote bool_denote int_denote].
  destruct (int_denote rho op =? CMPEQ) eqn:E2.
  - apply Z.eqb_eq in E2. rewrite E2. simpl.
    destruct (bv_denote rho in1 =? bv_denote rho in2); reflexivity.
  - destruct (int_denote rho op =? AND); reflexivity.
Qed.

End Evaluator.

(** *** The shape of the register file *)

Lemma select_agree sel regs regs' n acc :
  (forall j, (j < n)%nat -> reg regs j = reg regs' j) ->
  select sel regs n acc = select sel regs' n acc.
Proof.
  revert acc. induction n as [|j IH]; intros acc Hagree; [reflexivity|].
  cbn [select]. rewrite (Hagree j) by lia. apply IH. intros k Hk. apply Hagree. lia.
Qed.

Lemma eval_insn_agree insn regs regs' i :
  (forall j, (j <= i)%nat -> reg regs j = reg regs' j) ->
  eval_insn insn regs i = eval_insn insn regs' i.
Proof.
  intros Hagree. unfold eval_insn, operand1, operand2.
  rewrite (select_agree _ regs regs' i) by (intros; apply Hagree; lia).
  rewrite (select_agree _ regs regs' (S i)) by (intros; apply Hagree; lia).
  rewrite (Hagree i) by lia. reflexivity.
Qed.

Lemma reg_app_l regs tail j : (j < length regs)%nat -> reg (regs ++ tail) j = reg regs j.
Proof. intros H. unfold reg. now rewrite app_nth1. Qed.

Lemma reg_app_r regs e tail : reg (regs ++ e :: tail) (length regs) = e.
Proof. unfold reg. rewrite app_nth2 by lia. now rewrite Nat.sub_diag. Qed.

(** The loop only appends: it returns the registers it got, followed by
    one register per instruction. *)
Lemma eval_loop_app insns : forall i regs,
  exists tail, eval_loop insns i regs = regs ++ tail /\ length tail = length insns.
Proof.
  induction insns as [|insn rest IH]; intros i regs; simpl.
  - exists []. now rewrite app_nil_r.
  - destruct (IH (S i) (regs ++ [eval_insn insn regs i])) as (tail & -> & Hlen).
    exists (eval_insn insn regs i :: tail). split; [|simpl; lia].
    now rewrite <- app_assoc.
Qed.

(** Register [k + 1] of the final register file is the expression built
    for instruction [k] from the final register file itself. *)
Lemma eval_loop_reg insns : forall i regs k insn,
  length regs = S i ->
  insns !! k = Some insn ->
  reg (eval_loop insns i regs) (S (i + k)) =
  eval_insn insn (eval_loop insns i regs) (i + k).
Proof.
  induction insns as [|insn0 rest IH]; intros i regs k insn Hlen Hk; [discriminate|].
  destruct k as [|k]; simpl in Hk.
  - injection Hk as ->. cbn [eval_loop]. rewrite Nat.add_0_r.
    destruct (eval_loop_app rest (S i) (regs ++ [eval_insn insn regs i]))
      as (tail & -> & _).
    rewrite <- app_assoc. cbn [app].
    rewrite <- Hlen at 1. rewrite reg_app_r.
    apply eval_insn_agree. intros j Hj. symmetry. apply reg_app_l. lia.
  - cbn [eval_loop].
    replace (i + S k)%nat with (S i + k)%nat by lia.
    apply IH; [|assumption]. rewrite length_app. simpl. lia.
Qed.

Lemma eval_reg x insns k insn :
  insns !! k = Some insn ->
  reg (eval_loop insns 0 [x]) (S k) = eval_insn insn (eval_loop insns 0 [x]) k.
Proof. intros H. now apply (eval_loop_reg insns 0%nat [x] k insn). Qed.

(** C4. Operand selection in the symbolic evaluator.  For instruction
    [i] of [eval], whose result is register [i + 1], and every
    assignment: the first operand is [regs[r1]] when the value of [r1]
    is in [[0..i]] and the latest register [regs[i]] otherwise; the
    second operand is [regs[r2]] when the value of [r2] is in [[0..i]]
    and the immediate otherwise. *)
Theorem eval_operand_selection (rho : assignment) (x : bv_expr)
    (insns : list SymbolicInsn) (i : nat) (insn : SymbolicInsn) :
  insns !! i = Some insn ->
  let regs := eval_loop insns 0 [x] in
  reg regs (S i) =
    dispatch (opcode insn) (operand1 insn regs i) (operand2 insn regs i) /\
  bv_denote rho (operand1 insn regs i) =
    (if in_range (int_denote rho (r1 insn)) (Z.of_nat i)
     then bv_denote rho (reg regs (Z.to_nat (int_denote rho (r1 insn))))
     else bv_denote rho (reg regs i)) /\
  bv_denote rho (operand2 insn regs i) =
    (if in_range (int_denote rho (r2 insn)) (Z.of_nat i)
     then bv_denote rho (reg regs (Z.to_nat (int_denote rho (r2 insn))))
     else bv_denote rho (imm insn)).
Proof.
  intros Hi regs. split; [|split].
  - apply (eval_reg x insns i insn Hi).
  - apply operand1_denote.
  - apply operand2_denote.
Qed.

(** C5. Opcode dispatch in the symbolic evaluator.  The result of
    instruction [i] is the bitwise and of its operands when the opcode
    variable is AND, 1 or 0 according to whether the operands are equal
    when it is CMPEQ, and the difference modulo 2^32 for every other
    value of the opcode variable. *)
Theorem eval_opcode_dispatch (rho : assignment) (x : bv_expr)
    (insns : list SymbolicInsn) (i : nat) (insn : SymbolicInsn) :
  insns !! i = Some insn ->
  let regs := eval_loop insns 0 [x] in
  let in1 := bv_denote rho (operand1 insn regs i) in
  let in2 := bv_denote rho (operand2 insn regs i) in
  let op := int_denote rho (opcode insn) in
  bv_denote rho (reg regs (S i)) =
    if op =? AND then Z.land in1 in2
    else if op =? CMPEQ then (if in1 =? in2 then 1 else 0)
    else (in1 - in2) mod 2 ^ 32.
Proof.
  intros Hi regs in1 in2 op.
  unfold regs. rewrite (eval_reg x insns i insn Hi).
  unfold eval_insn. rewrite dispatch_denote. reflexivity.
Qed.

(** ** The target *)

Lemma pow2_wrap64_shiftl i : 0 <= i < 63 -> wrap64 (Z.shiftl (2 ^ i) 1) = 2 ^ (i + 1).
Proof.
  intros Hi. unfold wrap64. rewrite Z.shiftl_mul_pow2 by lia.
  rewrite <- Z.pow_add_r by lia. apply Z.mod_small. split.
  - apply Z.pow_nonneg. lia.
  - apply Z.pow_lt_mono_r; lia.
Qed.

(** The loop adds one comparison with [2^i] per turn. *)
Lemma isPowerOfTwoOrZero_loop_denote rho x count : forall (i : nat) r,
  (count + i <= 63)%nat ->
  bool_denote rho (isPowerOfTwoOrZero_loop count x r (2 ^ Z.of_nat i)) =
  bool_denote rho r ||
  existsb (fun k => bv_denote rho x =? wrap (2 ^ Z.of_nat k)) (seq i count).
Proof.
  induction count as [|count IH]; intros i r Hle.
  - simpl. now rewrite orb_false_r.
  - cbn [isPowerOfTwoOrZero_loop]. rewrite pow2_wrap64_shiftl by lia.
    replace (Z.of_nat i + 1) with (Z.of_nat (S i)) by lia.
    rewrite IH by lia. cbn [bool_denote bv_denote bvConst seq existsb].
    now rewrite <- orb_assoc.
Qed.

Lemma wrap_pow2 k : (k < 32)%nat -> wrap (2 ^ Z.of_nat k) = 2 ^ Z.of_nat k.
Proof.
  intros Hk. apply wrap_small. split; [apply Z.pow_nonneg; lia|].
  unfold modulus, REGISTER_WIDTH. apply Z.pow_lt_mono_r; lia.
Qed.

Lemma existsb_eq_in {A} (f g : A -> bool) l :
  (forall a, In a l -> f a = g a) -> existsb f l = existsb g l.
Proof.
  induction l as [|a l IH]; intros H; [reflexivity|]. simpl.
  rewrite (H a) by now left. rewrite IH; [reflexivity|].
  intros b Hb. apply H. now right.
Qed.

(** The expression built by [isPowerOfTwoOrZero] denotes the target
    function of the value of its argument. *)
Lemma isPowerOfTwoOrZero_denote rho x :
  bv_denote rho (isPowerOfTwoOrZero x) = spec_isPowerOfTwoOrZero (bv_denote rho x).
Proof.
  unfold isPowerOfTwoOrZero, boolToBv, spec_isPowerOfTwoOrZero.
  cbn [bv_denote bvConst].
  change 1 with (2 ^ Z.of_nat 0) at 1.
  rewrite isPowerOfTwoOrZero_loop_denote by (unfold REGISTER_WIDTH; lia).
  cbn [bool_denote bv_denote].
  change (Z.to_nat REGISTER_WIDTH) with 32%nat.
  rewrite (existsb_eq_in _ (fun i => bv_denote rho x =? 2 ^ Z.of_nat i)).
  - change (wrap 0) with 0. destruct (_ || _); reflexivity.
  - intros k Hk. apply in_seq in Hk. rewrite wrap_pow2 by lia. reflexivity.
Qed.

Lemma spec_isPowerOfTwoOrZero_1 v :
  power_of_two_or_zero v -> spec_isPowerOfTwoOrZero v = 1.
Proof.
  intros [->|(i & Hi & ->)]; [reflexivity|].
  unfold spec_isPowerOfTwoOrZero.
  replace (existsb _ _) with true; [now rewrite orb_true_r|].
  symmetry. apply existsb_exists. exists (Z.to_nat i). split.
  - apply in_seq. lia.
  - rewrite Z2Nat.id by lia. apply Z.eqb_refl.
Qed.

Lemma spec_isPowerOfTwoOrZero_0 v :
  ~ power_of_two_or_zero v -> spec_isPowerOfTwoOrZero v = 0.
Proof.
  intros Hn. unfold spec_isPowerOfTwoOrZero.
  destruct (_ || _) eqn:E; [|reflexivity].
  exfalso. apply Hn. apply orb_true_iff in E as [E|E].
  - left. now apply Z.eqb_eq.
  - right. apply existsb_exists in E as (k & Hk & E). apply in_seq in Hk.
    exists (Z.of_nat k). split; [lia|]. now apply Z.eqb_eq.
Qed.

(** *** Counting bits *)

Lemma testbit_high v n : 0 <= v < modulus -> 32 <= n -> Z.testbit v n = false.
Proof.
  intros Hv Hn. rewrite <- (Z.mod_small v modulus) by assumption.
  unfold modulus, REGISTER_WIDTH. apply Z.mod_pow2_bits_high. lia.
Qed.

Lemma popcount_bits v n :
  0 <= v < modulus -> 0 <= n ->
  Z.testbit v n = true <->
  In (Z.to_nat n) (List.filter (fun i => Z.testbit v (Z.of_nat i)) (seq 0 32)).
Proof.
  intros Hv Hn. rewrite filter_In, in_seq, Z2Nat.id by assumption. split.
  - intros Hb. split; [|assumption].
    destruct (Z.lt_ge_cases n 32); [lia|].
    rewrite testbit_high in Hb by assumption. discriminate.
  - now intros [_ Hb].
Qed.

Lemma popcount_pow2 : forall i, In i (seq 0 32) -> popcount (2 ^ Z.of_nat i) = 1%nat.
Proof.
  apply (proj1 (List.Forall_forall (fun i => popcount (2 ^ Z.of_nat i) = 1%nat) _)).
  repeat (apply List.Forall_cons; [vm_compute; reflexivity|]). apply List.Forall_nil.
Qed.

(** At most one bit is set exactly in zero and in the powers of two. *)
Lemma popcount_le_1 v :
  0 <= v < modulus -> (popcount v <= 1)%nat <-> power_of_two_or_zero v.
Proof.
  intros Hv. split.
  - unfold popcount. intros Hle.
    pose proof (popcount_bits v) as Hbits.
    destruct (List.filter _ _) as [|i [|j rest]] eqn:E; [| |simpl in Hle; lia].
    + left. apply Z.bits_inj'. intros n Hn. rewrite Z.bits_0.
      destruct (Z.testbit v n) eqn:Hb; [|reflexivity].
      apply Hbits in Hb; [destruct Hb|assumption|assumption].
    + right. assert (Hi : In i (seq 0 32)).
      { eapply (proj1 (filter_In _ _ _)). rewrite E. now left. }
      apply in_seq in Hi. exists (Z.of_nat i). split; [lia|].
      apply Z.bits_inj'. intros n Hn. rewrite Z.pow2_bits_eqb by lia.
      destruct (Z.eqb_spec (Z.of_nat i) n) as [<-|Hne].
      * apply Hbits; [assumption|lia|]. rewrite Nat2Z.id. now left.
      * destruct (Z.testbit v n) eqn:Hb; [|reflexivity].
        apply Hbits in Hb; [|assumption|assumption].
        destruct Hb as [Hb|[]]. lia.
  - intros [->|(i & Hi & ->)]; [vm_compute; lia|].
    rewrite <- (Z2Nat.id i) by lia. rewrite popcount_pow2; [lia|].
    apply in_seq. lia.
Qed.

(** C3. [isPowerOfTwoOrZero] on a register value: the expression it
    builds has the value 1 when the argument is zero or [2^i] for some
    [i] in [[0..31]], which is when at most one bit of the argument is
    set, and the value 0 otherwise.  The argument is the numeral of the
    register value [x]. *)
Theorem isPowerOfTwoOrZero_correct (rho : assignment) (x : Z) :
  0 <= x < modulus ->
  (power_of_two_or_zero x ->
     bv_denote rho (isPowerOfTwoOrZero (bvConst x)) = 1) /\
  (~ power_of_two_or_zero x ->
     bv_denote rho (isPowerOfTwoOrZero (bvConst x)) = 0) /\
  (power_of_two_or_zero x <-> (popcount x <= 1)%nat).
Proof.
  intros Hx. rewrite isPowerOfTwoOrZero_denote. cbn [bv_denote bvConst].
  rewrite wrap_small by assumption. split; [|split].
  - apply spec_isPowerOfTwoOrZero_1.
  - apply spec_isPowerOfTwoOrZero_0.
  - symmetry. now apply popcount_le_1.
Qed.

(** ** The builder *)

Lemma back_snoc insns insn : back (insns ++ [insn]) = insn.
Proof. unfold back. apply last_last. Qed.

Lemma makeInsns_loop_eq count : forall (i : nat) insns constraints,
  makeInsns_loop count (Z.of_nat i) insns constraints =
  (insns ++ map slot (seq i count),
   constraints ++ map (fun k => bv_ult (imm (slot k)) (bv_val 255)) (seq i count)).
Proof.
  induction count as [|count IH]; intros i insns constraints.
  - simpl. now rewrite !app_nil_r.
  - cbn [makeInsns_loop]. rewrite back_snoc.
    replace (Z.of_nat i + 1) with (Z.of_nat (S i)) by lia.
    rewrite IH. cbn [seq map]. now rewrite <- !app_assoc.
Qed.

Lemma makeInsns_eq (n : nat) :
  makeInsns (Z.of_nat n) =
  (map slot (seq 0 n),
   map (fun insn => bv_ult (imm insn) (bv_val 255)) (map slot (seq 0 n))).
Proof.
  unfold makeInsns. rewrite Nat2Z.id.
  change 0 with (Z.of_nat 0).
  rewrite (makeInsns_loop_eq n 0%nat [] []). cbn [app]. now rewrite map_map.
Qed.

(** *** Names *)

(** A decimal numeral followed by an underscore can be read back. *)
Lemma string_of_uint_sep (d : Decimal.uint) : forall (d' : Decimal.uint) s s',
  DecimalString.NilEmpty.string_of_uint d +:+ String "_"%char s =
  DecimalString.NilEmpty.string_of_uint d' +:+ String "_"%char s' ->
  d = d' /\ s = s'.
Proof.
  induction d as [|d IH|d IH|d IH|d IH|d IH|d IH|d IH|d IH|d IH|d IH];
    intros [|d'|d'|d'|d'|d'|d'|d'|d'|d'|d'] s s' H; simpl in H;
    try discriminate H;
    try (injection H as H; destruct (IH _ _ _ H) as [-> ->]; now split).
  injection H as ->. now split.
Qed.

Lemma to_string_sep (k k' : nat) s s' :
  to_string (Z.of_nat k) +:+ String "_"%char s = to_string (Z.of_nat k') +:+ String "_"%char s' ->
  k = k' /\ s = s'.
Proof.
  assert (Hnz : forall n : nat, exists d,
    to_string (Z.of_nat n) = DecimalString.NilEmpty.string_of_uint d /\ Z.of_uint d = Z.of_nat n).
  { intros n. unfold to_string.
    pose proof (DecimalZ.of_to (Z.of_nat n)) as Hof.
    destruct (Z.to_int (Z.of_nat n)) as [d|d] eqn:E.
    - destruct d; try (eexists; split; [reflexivity|exact Hof]).
      exists (Decimal.D0 Decimal.Nil). split; [reflexivity|].
      rewrite <- Hof. reflexivity.
    - destruct (Z.of_nat n) eqn:En; try discriminate E. lia. }
  destruct (Hnz k) as (d & -> & Hd). destruct (Hnz k') as (d' & -> & Hd').
  intros H. apply string_of_uint_sep in H as [-> ->]. split; [lia|reflexivity].
Qed.

Lemma NoDup_flat_map {A B} (f : A -> list B) l :
  NoDup l ->
  (forall a, In a l -> NoDup (f a)) ->
  (forall a a' b, In a l -> In a' l -> In b (f a) -> In b (f a') -> a = a') ->
  NoDup (flat_map f l).
Proof.
  induction 1 as [|a l Hnotin Hnd IH]; intros Hf Hinj; simpl; [constructor|].
  apply NoDup_app. split; [|split].
  - apply Hf. now left.
  - intros b Hb Hb'. apply list_elem_of_In in Hb, Hb'.
    apply in_flat_map in Hb' as (a' & Ha' & Hb').
    assert (a = a') as <- by (eapply Hinj; eauto; [now left|now right]).
    apply Hnotin. now apply list_elem_of_In.
  - apply IH.
    + intros a' Ha'. apply Hf. now right.
    + intros a1 a2 b H1 H2. apply Hinj; now right.
Qed.

Lemma slot_names k :
  insn_names (slot k) =
  [ "op" +:+ to_string (Z.of_nat k) +:+ "_op";
    "op" +:+ to_string (Z.of_nat k) +:+ "_r1";
    "op" +:+ to_string (Z.of_nat k) +:+ "_r2";
    "op" +:+ to_string (Z.of_nat k) +:+ "_imm" ].
Proof. reflexivity. Qed.

Lemma slot_names_inj k k' s :
  In s (insn_names (slot k)) -> In s (insn_names (slot k')) -> k = k'.
Proof.
  rewrite !slot_names. simpl.
  intros [<-|[<-|[<-|[<-|[]]]]] [H|[H|[H|[H|[]]]]];
    injection H as H; now apply to_string_sep in H as [-> _].
Qed.

Lemma slot_names_NoDup k : NoDup (insn_names (slot k)).
Proof.
  rewrite slot_names.
  assert (Hne : forall s s', s <> s' ->
    "op" +:+ to_string (Z.of_nat k) +:+ String "_"%char s <>
    "op" +:+ to_string (Z.of_nat k) +:+ String "_"%char s').
  { intros s s' Hs H. injection H as H. now apply to_string_sep in H as [_ ->]. }
  repeat (constructor; [rewrite list_elem_of_In; simpl; intros H;
    repeat (destruct H as [H|H]; [revert H; apply Hne; discriminate|]); exact H|]).
  constructor.
Qed.

Lemma slots_names_NoDup n : NoDup (flat_map insn_names (map slot (seq 0 n))).
Proof.
  rewrite flat_map_concat_map, map_map, <- flat_map_concat_map.
  apply NoDup_flat_map.
  - apply NoDup_ListNoDup, seq_NoDup.
  - intros k _. apply slot_names_NoDup.
  - intros k k' s _ _. apply slot_names_inj.
Qed.

Lemma map_seq_lookup {A} (f : nat -> A) n : forall start i,
  (i < n)%nat -> map f (seq start n) !! i = Some (f (start + i)%nat).
Proof.
  induction n as [|n IH]; intros start i Hi; [lia|].
  destruct i as [|i]; cbn [seq map].
  - now rewrite Nat.add_0_r.
  - change ((f start :: map f (seq (S start) n)) !! S i)
      with (map f (seq (S start) n) !! i).
    rewrite IH by lia. f_equal. f_equal. lia.
Qed.

Lemma slots_names_length l :
  length (flat_map insn_names (map slot l)) = (4 * length l)%nat.
Proof.
  induction l as [|k l IH]; [reflexivity|].
  cbn [map flat_map]. rewrite length_app, IH, slot_names. cbn [length]. lia.
Qed.

(** C6, as the code has it.  For every [N >= 0], [makeInsns(N)] returns
    exactly [N] symbolic instructions and [N] constraints.  Instruction
    [i] is made of the four solver constants [op<i>_op], [op<i>_r1],
    [op<i>_r2] (integers) and [op<i>_imm] (a bit-vector), so the
    instructions have [4 N] variables, whose names are distinct.
    Constraint [i] is the unsigned comparison [op<i>_imm < 0xff]: there
    is exactly one constraint per instruction, and the constraints say
    nothing of the variables [op_i], [r1_i] and [r2_i]. *)
Theorem makeInsns_correct (N : Z) :
  0 <= N ->
  let insns := fst (makeInsns N) in
  let constraints := snd (makeInsns N) in
  Z.of_nat (length insns) = N /\
  Z.of_nat (length constraints) = N /\
  (forall i, (i < Z.to_nat N)%nat ->
     let prefix := "op" +:+ to_string (Z.of_nat i) in
     insns !! i = Some {| opcode := int_const (prefix +:+ "_op");
                          r1 := int_const (prefix +:+ "_r1");
                          r2 := int_const (prefix +:+ "_r2");
                          imm := bv_const (prefix +:+ "_imm") |} /\
     constraints !! i =
       Some (bv_ult (bv_const (prefix +:+ "_imm")) (bv_val 0xff))) /\
  length (flat_map insn_names insns) = (4 * Z.to_nat N)%nat /\
  NoDup (flat_map insn_names insns) /\
  constraints = map (fun insn => bv_ult (imm insn) (bv_val 0xff)) insns /\
  flat_map bool_names constraints = flat_map (fun insn => bv_names (imm insn)) insns /\
  forall rho, holds rho constraints =
              forallb (fun insn => bv_denote rho (imm insn) <? 0xff) insns.
Proof.
  intros HN insns constraints. subst insns constraints.
  assert (E : N = Z.of_nat (Z.to_nat N)) by lia. revert E.
  generalize (Z.to_nat N) as n. intros n ->. clear HN.
  rewrite makeInsns_eq. cbn [fst snd].
  split; [now rewrite length_map, length_seq|].
  split; [now rewrite !length_map, length_seq|].
  split.
  { intros i Hi. rewrite map_map.
    rewrite !map_seq_lookup by assumption. split; reflexivity. }
  split; [now rewrite slots_names_length, length_seq|].
  split; [apply slots_names_NoDup|].
  split; [reflexivity|].
  split.
  - induction (map slot (seq 0 n)) as [|insn insns IH]; [reflexivity|].
    cbn [map flat_map bool_names bv_names]. rewrite IH, app_nil_r. reflexivity.
  - intros rho. unfold holds.
    induction (map slot (seq 0 n)) as [|insn insns IH]; [reflexivity|].
    cbn [map forallb]. rewrite IH. reflexivity.
Qed.

(** C6 as stated fails: the bound of the constraint is [0xff], not
    [0x100], so the immediate [0xff] is below [0x100] and yet excluded. *)
Lemma makeInsns_excludes_0xff :
  snd (makeInsns 1) = [bv_ult (bv_const "op0_imm") (bv_val 0xff)] /\
  (bv_denote (fun _ => 0xff) (bv_const "op0_imm") <? 0x100) = true /\
  holds (fun _ => 0xff) (snd (makeInsns 1)) = false.
Proof. repeat split. Qed.

(** ** The decoder *)

Lemma wrap_wrap v : wrap (wrap v) = wrap v.
Proof. apply wrap_small, wrap_range. Qed.

(** Reading a selector: the value under the model completed with 0,
    when it fits an [int]. *)
Lemma getIntDefault_eval m e :
  getIntDefault (model_eval_int m e) 0 =
  if fits_int (int_denote (complete m) e)
  then Ok (int_denote (complete m) e)
  else Throw "numeral does not fit in machine int".
Proof.
  destruct e as [s|n]; simpl; [|reflexivity].
  unfold complete, override. destruct (m !! s) as [v|]; reflexivity.
Qed.

(** Reading the immediate. *)
Lemma getUint64Default_eval m e :
  atomic e ->
  getUint64Default (model_eval m e) 0 = Ok (bv_denote (complete m) e).
Proof.
  destruct e as [s|v| | |]; simpl; try contradiction; intros _.
  - unfold model_eval, complete, override. simpl.
    destruct (m !! s) as [v|]; simpl; [|reflexivity].
    unfold getUint64Default. simpl. now rewrite wrap_wrap.
  - unfold model_eval, getUint64Default. simpl. now rewrite wrap_wrap.
Qed.

Lemma reconstructInsn_Ok m insn i d :
  reconstructInsn m insn i = Ok d ->
  selectors_fit m insn /\
  exists v,
    d = decode i (int_denote (complete m) (opcode insn))
          (int_denote (complete m) (r1 insn))
          (int_denote (complete m) (r2 insn)) v /\
    (atomic (imm insn) -> v = bv_denote (complete m) (imm insn)).
Proof.
  unfold reconstructInsn, selectors_fit. rewrite !getIntDefault_eval.
  destruct (fits_int (int_denote (complete m) (opcode insn))); [|discriminate].
  destruct (fits_int (int_denote (complete m) (r1 insn))); [|discriminate].
  destruct (fits_int (int_denote (complete m) (r2 insn))); [|discriminate].
  cbn [mbind result_bind]. unfold decode, in_range, LAST, CMPEQ, SUB.
  set (op := int_denote (complete m) (opcode insn)).
  set (v1 := int_denote (complete m) (r1 insn)).
  set (v2 := int_denote (complete m) (r2 insn)).
  intros H. split; [auto|].
  destruct ((v2 <? 0) || (v2 >? i)) eqn:E2.
  - destruct (getUint64Default (model_eval m (imm insn)) 0) as [v| |] eqn:Ev;
      try discriminate H. cbn [mbind result_bind] in H. injection H as <-.
    exists v. split.
    + revert E2. zcases; intros; try discriminate; reflexivity.
    + intros Hat. rewrite getUint64Default_eval in Ev by assumption. congruence.
  - injection H as <-. exists (bv_denote (complete m) (imm insn)). split; [|auto].
    revert E2. zcases; intros; try discriminate; reflexivity.
Qed.

Lemma reconstructInsn_fits m insn i :
  atomic (imm insn) -> selectors_fit m insn ->
  reconstructInsn m insn i =
  Ok (decode i (int_denote (complete m) (opcode insn))
        (int_denote (complete m) (r1 insn))
        (int_denote (complete m) (r2 insn))
        (bv_denote (complete m) (imm insn))).
Proof.
  intros Hat (H0 & H1 & H2). unfold reconstructInsn.
  rewrite !getIntDefault_eval, H0, H1, H2, getUint64Default_eval by assumption.
  cbn [mbind result_bind]. unfold decode, in_range, LAST, CMPEQ, SUB.
  zcases; reflexivity.
Qed.

Lemma decode_well_formed i op v1 v2 v : 0 <= i -> well_formed (decode i op v1 v2 v) i.
Proof.
  intros Hi. unfold well_formed, decode, in_range, LAST, CMPEQ, AND, SUB. simpl.
  split; [|split].
  - zcases.
  - zcases.
  - zcases; simpl; lia.
Qed.

Lemma toString_well_formed insn i dest :
  well_formed insn i -> exists s, toString insn dest = Ok s.
Proof.
  intros ([H|[H|H]] & _); unfold toString; rewrite H; simpl; eauto.
Qed.

(** The loop pushes the decoded instructions, in order. *)
Lemma reconstructProgram_loop_Ok m insns : forall i program result,
  reconstructProgram_loop m insns i program = Ok result ->
  exists decoded,
    result = program ++ decoded /\
    length decoded = length insns /\
    forall k insn, insns !! k = Some insn ->
      exists d, decoded !! k = Some d /\ reconstructInsn m insn (i + Z.of_nat k) = Ok d.
Proof.
  induction insns as [|insn0 rest IH]; intros i program result H.
  - injection H as <-. exists []. rewrite app_nil_r. repeat split. intros k insn Hk.
    discriminate.
  - cbn [reconstructProgram_loop] in H.
    destruct (reconstructInsn m insn0 i) as [d0| |] eqn:E0; try discriminate H.
    cbn [mbind result_bind] in H.
    apply IH in H as (decoded & -> & Hlen & Hall).
    exists (d0 :: decoded). rewrite <- app_assoc. split; [reflexivity|].
    split; [simpl; lia|]. intros [|k] insn Hk; simpl in Hk.
    + injection Hk as <-. exists d0. rewrite Z.add_0_r. now split.
    + destruct (Hall k insn Hk) as (d & Hd & Hdec). exists d. split; [assumption|].
      rewrite <- Hdec. f_equal. lia.
Qed.

Lemma reconstructProgram_loop_total m insns : forall i program,
  (forall k insn, insns !! k = Some insn ->
     exists d, reconstructInsn m insn (i + Z.of_nat k) = Ok d) ->
  exists result, reconstructProgram_loop m insns i program = Ok result.
Proof.
  induction insns as [|insn0 rest IH]; intros i program Hall.
  - eexists. reflexivity.
  - cbn [reconstructProgram_loop].
    destruct (Hall 0%nat insn0 eq_refl) as (d0 & Hd0).
    rewrite Z.add_0_r in Hd0. rewrite Hd0. cbn [mbind result_bind].
    apply IH. intros k insn Hk. destruct (Hall (S k) insn Hk) as (d & Hd).
    exists d. rewrite <- Hd. f_equal. lia.
Qed.

Lemma printProgram_well_formed program : forall i,
  (forall k insn, program !! k = Some insn -> exists j, well_formed insn j) ->
  exists lines, printProgram program i = Ok lines.
Proof.
  induction program as [|insn rest IH]; intros i Hwf; [eexists; reflexivity|].
  cbn [printProgram].
  destruct (Hwf 0%nat insn eq_refl) as (j & Hj).
  destruct (toString_well_formed insn j (i + 1) Hj) as (line & ->).
  destruct (IH (i + 1)) as (lines & ->).
  - intros k insn' Hk. apply (Hwf (S k) insn' Hk).
  - eexists. reflexivity.
Qed.

Lemma reconstructProgram_lookup insns m program i insn :
  reconstructProgram insns m = Ok program ->
  program !! i = Some insn ->
  well_formed insn (Z.of_nat i).
Proof.
  intros H Hi. unfold reconstructProgram in H.
  apply reconstructProgram_loop_Ok in H as (decoded & -> & Hlen & Hall).
  cbn [app] in Hi.
  assert (Hlt : (i < length insns)%nat).
  { rewrite <- Hlen. now apply lookup_lt_Some in Hi. }
  destruct (lookup_lt_is_Some_2 insns i Hlt) as (sym & Hsym).
  destruct (Hall i sym Hsym) as (d & Hd & Hdec).
  rewrite Hi in Hd. injection Hd as <-.
  apply reconstructInsn_Ok in Hdec as (_ & v & -> & _).
  apply decode_well_formed. lia.
Qed.

Lemma reconstructProgram_prints insns m program :
  reconstructProgram insns m = Ok program ->
  exists lines, printProgram program 0 = Ok lines.
Proof.
  intros H. apply printProgram_well_formed. intros k insn Hk. exists (Z.of_nat k).
  now apply (reconstructProgram_lookup insns m program k insn).
Qed.

(** C10. Decoded programs are well formed: instruction [i] of a program
    returned by [reconstructProgram] has one of the three opcodes, a
    first source in [[0..i]], and either the immediate flag with
    [r2 = 0], or no immediate flag, a second source in [[0..i]] and
    [imm = 0]; so [toString] never reaches [abort()] on it, and the
    printing loops of [main] print the whole program. *)
Theorem reconstructProgram_well_formed (insns : list SymbolicInsn) (m : model)
    (program : list Insn) :
  reconstructProgram insns m = Ok program ->
  (forall i insn, program !! i = Some insn ->
     well_formed insn (Z.of_nat i) /\
     forall dest, exists s, toString insn dest = Ok s) /\
  exists lines, printProgram program 0 = Ok lines.
Proof.
  intros H. split.
  - intros i insn Hi.
    pose proof (reconstructProgram_lookup insns m program i insn H Hi) as Hwf.
    split; [assumption|]. intros dest. now apply (toString_well_formed insn (Z.of_nat i)).
  - now apply (reconstructProgram_prints insns m).
Qed.

(** Where the decoder returns.  For every model, total or partial, in
    which the values of the opcode, [r1] and [r2] variables fit an
    [int], and every list of symbolic instructions, [reconstructProgram]
    returns one instruction per symbolic instruction; instruction [i] is
    the one of the spec's decoding for the model's values, a variable
    the model leaves out being read as 0: an opcode outside [[0..LAST]]
    gives SUB, an [r1] outside [[0..i]] gives [i], an [r2] outside
    [[0..i]] gives an instruction with the model's immediate. *)
Theorem reconstructProgram_total (m : model) (prefixes : list string) :
  let insns := map newSymbolicInsn prefixes in
  (forall insn, In insn insns -> selectors_fit m insn) ->
  exists program,
    reconstructProgram insns m = Ok program /\
    length program = length insns /\
    forall i insn, insns !! i = Some insn ->
      program !! i =
      Some (decode (Z.of_nat i)
              (int_denote (complete m) (opcode insn))
              (int_denote (complete m) (r1 insn))
              (int_denote (complete m) (r2 insn))
              (bv_denote (complete m) (imm insn))).
Proof.
  intros insns Hfit.
  assert (Hat : forall k insn, insns !! k = Some insn ->
            atomic (imm insn) /\ selectors_fit m insn).
  { intros k insn Hk. split.
    - unfold insns in Hk. rewrite list_lookup_fmap in Hk.
      destruct (prefixes !! k); [|discriminate]. injection Hk as <-. exact I.
    - apply Hfit. apply list_elem_of_In. eapply list_elem_of_lookup_2. eassumption. }
  destruct (reconstructProgram_loop_total m insns 0 []) as (program & Hprog).
  { intros k insn Hk. destruct (Hat k insn Hk) as (Ha & Hf).
    eexists. now apply reconstructInsn_fits. }
  exists program. split; [exact Hprog|].
  apply reconstructProgram_loop_Ok in Hprog as (decoded & -> & Hlen & Hall).
  cbn [app]. split; [assumption|]. intros i insn Hi.
  destruct (Hall i insn Hi) as (d & -> & Hd). destruct (Hat i insn Hi) as (Ha & Hf).
  rewrite Z.add_0_l, reconstructInsn_fits in Hd by assumption. congruence.
Qed.

(** C7 fails on the code.  The selectors are integers of the solver,
    and [eval] and the decoder's own tests [r1 < 0 || r1 > i] give
    every integer a meaning, but [getIntDefault] reads the value into
    an [int] first: for the model that gives [op0_r1] the value [2^31],
    which is out of the range [[0..0]] and so stands for register 0,
    [reconstructProgram] throws instead of returning a program. *)
Lemma reconstructProgram_throws :
  reconstructProgram (fst (makeInsns 1)) {[ "op0_r1" := 2 ^ 31 ]} =
  Throw "numeral does not fit in machine int".
Proof. reflexivity. Qed.

(** ** Agreement of the evaluator and the decoder *)

Lemma reg_denote rho regs j :
  nth j (map (bv_denote rho) regs) 0 = bv_denote rho (reg regs j).
Proof. unfold reg. change 0 with (bv_denote rho (bvConst 0)) at 1. apply map_nth. Qed.

Lemma eval_op_in_range op a b :
  eval_op (if in_range op LAST then op else SUB) a b = eval_op op a b.
Proof.
  destruct (in_range op LAST) eqn:E; [reflexivity|].
  unfold eval_op, in_range, LAST, CMPEQ, AND, SUB in *.
  destruct (Z.eqb_spec op 1) as [->|_]; [discriminate E|].
  destruct (Z.eqb_spec op 2) as [->|_]; [discriminate E|]. reflexivity.
Qed.

(** One instruction: the decoded instruction run on the values of the
    registers gives the value of the expression built by [eval]. *)
Lemma run_insn_eval_insn rho m insn regs (i : nat) d :
  atomic (imm insn) ->
  reads_as rho m insn ->
  reconstructInsn m insn (Z.of_nat i) = Ok d ->
  run_insn (map (bv_denote rho) regs) d = bv_denote rho (eval_insn insn regs i).
Proof.
  intros Hat (Hop & H1 & H2 & Himm) Hd.
  apply reconstructInsn_Ok in Hd as (_ & v & -> & Hv).
  rewrite (Hv Hat), <- Hop, <- H1, <- H2, <- Himm.
  unfold eval_insn. rewrite dispatch_denote, operand1_denote, operand2_denote.
  unfold run_insn, decode. cbn [insn_opcode insn_r1 insn_r2 insn_isImm insn_imm].
  rewrite eval_op_in_range, !reg_denote. f_equal.
  - unfold in_range. destruct (_ && _); [reflexivity|]. now rewrite Nat2Z.id.
  - unfold in_range. destruct (_ && _); simpl; [reflexivity|].
    apply wrap_small, bv_denote_range.
Qed.

(** The two loops in lockstep. *)
Lemma run_loop_eval_loop rho m insns : forall (i : nat) regs program result,
  length regs = S i ->
  (forall insn, In insn insns -> atomic (imm insn) /\ reads_as rho m insn) ->
  reconstructProgram_loop m insns (Z.of_nat i) program = Ok result ->
  exists decoded,
    result = program ++ decoded /\
    length decoded = length insns /\
    run_loop decoded (map (bv_denote rho) regs) =
    map (bv_denote rho) (eval_loop insns i regs).
Proof.
  induction insns as [|insn rest IH]; intros i regs program result Hlen Hall H.
  - injection H as <-. exists []. now rewrite app_nil_r.
  - cbn [reconstructProgram_loop] in H.
    destruct (reconstructInsn m insn (Z.of_nat i)) as [d| |] eqn:Ed; try discriminate H.
    cbn [mbind result_bind] in H.
    replace (Z.of_nat i + 1) with (Z.of_nat (S i)) in H by lia.
    apply (IH (S i) (regs ++ [eval_insn insn regs i])) in H
      as (decoded & -> & Hlen' & Hrun).
    + exists (d :: decoded). rewrite <- app_assoc. split; [reflexivity|].
      split; [simpl; lia|]. cbn [run_loop eval_loop]. rewrite <- Hrun.
      rewrite map_app. cbn [map]. f_equal. f_equal. f_equal.
      destruct (Hall insn (or_introl eq_refl)) as (Hat & Hreads).
      now apply (run_insn_eval_insn rho m insn regs i d).
    + rewrite length_app. simpl. lia.
    + intros insn' Hin. apply Hall. now right.
Qed.

Lemma Evaluator_concrete_eval rho m insns x program :
  (forall insn, In insn insns -> atomic (imm insn) /\ reads_as rho m insn) ->
  reconstructProgram insns m = Ok program ->
  Evaluator_concrete (bv_denote rho x) program = bv_denote rho (eval x insns).
Proof.
  intros Hall H. unfold reconstructProgram in H.
  apply (run_loop_eval_loop rho m insns 0%nat [x]) in H
    as (decoded & -> & Hlen & Hrun); [|reflexivity|assumption].
  cbn [app]. unfold Evaluator_concrete, eval.
  rewrite wrap_small by apply bv_denote_range.
  cbn [map] in Hrun. rewrite Hrun, Hlen. apply reg_denote.
Qed.

Lemma slot_reads_as rho m k :
  (forall s, In s (insn_names (slot k)) -> rho s = complete m s) ->
  atomic (imm (slot k)) /\ reads_as rho m (slot k).
Proof.
  intros H. split; [exact I|].
  unfold reads_as, slot, newSymbolicInsn. cbn [opcode r1 r2 imm int_denote bv_denote].
  rewrite !H; [repeat split | | | |]; rewrite slot_names; simpl; auto.
Qed.

Lemma makeInsns_reads_as rho m N :
  (forall s, In s (flat_map insn_names (fst (makeInsns N))) -> rho s = complete m s) ->
  forall insn, In insn (fst (makeInsns N)) ->
    atomic (imm insn) /\ reads_as rho m insn.
Proof.
  unfold makeInsns. change 0 with (Z.of_nat 0). rewrite makeInsns_loop_eq.
  cbn [fst app]. intros H insn Hin.
  apply in_map_iff in Hin as (k & <- & Hk). apply slot_reads_as.
  intros s Hs. apply H. apply in_flat_map. exists (slot k). split; [|assumption].
  now apply in_map.
Qed.

Lemma reconstructProgram_fits insns m :
  (forall insn, In insn insns -> atomic (imm insn) /\ selectors_fit m insn) ->
  exists program, reconstructProgram insns m = Ok program.
Proof.
  intros H. apply reconstructProgram_loop_total. intros k insn Hk.
  destruct (H insn) as (Hat & Hfit).
  - apply list_elem_of_In. eapply list_elem_of_lookup_2. eassumption.
  - eexists. now apply reconstructInsn_fits.
Qed.

Lemma makeInsns_atomic N insn : In insn (fst (makeInsns N)) -> atomic (imm insn).
Proof.
  unfold makeInsns. change 0 with (Z.of_nat 0). rewrite makeInsns_loop_eq.
  cbn [fst app]. intros Hin. apply in_map_iff in Hin as (k & <- & _). exact I.
Qed.

(** Agreement of the evaluator and the decoder, where the decoder
    returns.  Take the [N] symbolic instructions of [makeInsns], a
    model, and an assignment that gives the variables of the
    instructions the model's values (0 for the variables the model
    leaves out).  Then the value of the expression built by [eval] for
    an input expression is the result of running the program that
    [reconstructProgram] decodes from the model, under the concrete
    semantics, on the value of the input; and [reconstructProgram] does
    return a program when the values of the selectors fit an [int]. *)
Theorem evaluator_decoder_agreement (N : Z) (m : model) (rho : assignment)
    (x : bv_expr) :
  let insns := fst (makeInsns N) in
  (forall s, In s (flat_map insn_names insns) -> rho s = complete m s) ->
  (forall program, reconstructProgram insns m = Ok program ->
     bv_denote rho (eval x insns) = Evaluator_concrete (bv_denote rho x) program) /\
  ((forall insn, In insn insns -> selectors_fit m insn) ->
   exists program, reconstructProgram insns m = Ok program).
Proof.
  intros insns Hrho. split.
  - intros program Hprog. symmetry.
    apply (Evaluator_concrete_eval rho m insns x program); [|assumption].
    now apply makeInsns_reads_as.
  - intros Hfit. apply reconstructProgram_fits. intros insn Hin.
    split; [now apply (makeInsns_atomic N)|now apply Hfit].
Qed.

(** C2 fails on the code at a model whose opcode does not fit an [int].
    For the symbolic instruction of [makeInsns(1)] and the model that
    gives [op0_op] the value [2^31], the expression of [eval] at the
    input 5 has the value 0 under the model: an opcode out of range is
    SUB, and [r2 = 0] selects the input.  The program of the spec's
    decoding, [sub r0, r0], gives 0 on 5 as well.  But
    [reconstructProgram] throws on this model, so there is no decoded
    program whose run could equal the value of the expression. *)
Lemma decoder_throws_where_eval_is_defined :
  bv_denote (complete {[ "op0_op" := 2 ^ 31 ]})
    (eval (bvConst 5) (fst (makeInsns 1))) = 0 /\
  Evaluator_concrete 5 [decode 0 (2 ^ 31) 0 0 0] = 0 /\
  reconstructProgram (fst (makeInsns 1)) {[ "op0_op" := 2 ^ 31 ]} =
    Throw "numeral does not fit in machine int".
Proof. repeat split. Qed.

(** ** Models and evaluation *)

Lemma int_denote_ext rho1 rho2 e :
  (forall s, In s (int_names e) -> rho1 s = rho2 s) ->
  int_denote rho1 e = int_denote rho2 e.
Proof. destruct e; simpl; auto. Qed.

(** The value of an expression depends on the variables it names only. *)
Lemma denote_ext rho1 rho2 :
  (forall e, (forall s, In s (bv_names e) -> rho1 s = rho2 s) ->
             bv_denote rho1 e = bv_denote rho2 e) /\
  (forall b, (forall s, In s (bool_names b) -> rho1 s = rho2 s) ->
             bool_denote rho1 b = bool_denote rho2 b).
Proof.
  apply expr_mutind; intros; cbn [bv_denote bool_denote bv_names bool_names] in *;
    repeat match goal with
    | IH : (forall s, In s ?n -> _) -> _ = _,
      H : forall s, In s _ -> rho1 s = rho2 s |- _ =>
        rewrite IH by (intros; apply H; rewrite ?in_app_iff; tauto); clear IH
    | H : forall s, In s (int_names ?a ++ _) -> rho1 s = rho2 s
      |- context [int_denote rho1 ?a] =>
        rewrite (int_denote_ext rho1 rho2 a)
          by (intros; apply H; rewrite ?in_app_iff; tauto)
    | H : forall s, In s (_ ++ int_names ?a) -> rho1 s = rho2 s
      |- context [int_denote rho1 ?a] =>
        rewrite (int_denote_ext rho1 rho2 a)
          by (intros; apply H; rewrite ?in_app_iff; tauto)
    end; try reflexivity.
  rewrite H by now left. reflexivity.
Qed.

Lemma bv_denote_ext rho1 rho2 e :
  (forall s, In s (bv_names e) -> rho1 s = rho2 s) ->
  bv_denote rho1 e = bv_denote rho2 e.
Proof. apply denote_ext. Qed.

Lemma bool_denote_ext rho1 rho2 b :
  (forall s, In s (bool_names b) -> rho1 s = rho2 s) ->
  bool_denote rho1 b = bool_denote rho2 b.
Proof. apply denote_ext. Qed.

Lemma int_subst_denote rho m e :
  int_denote rho (int_subst m e) = int_denote (override m rho) e.
Proof.
  destruct e as [s|n]; simpl; [|reflexivity].
  unfold override. destruct (m !! s); reflexivity.
Qed.

(** Substituting a model and then evaluating is evaluating with the
    model's values put over the assignment. *)
Lemma subst_denote rho m :
  (forall e, bv_denote rho (bv_subst m e) = bv_denote (override m rho) e) /\
  (forall b, bool_denote rho (bool_subst m b) = bool_denote (override m rho) b).
Proof.
  apply expr_mutind; intros;
    cbn [bv_subst bool_subst bv_denote bool_denote];
    rewrite ?int_subst_denote; try congruence.
  - unfold override. destruct (m !! name); reflexivity.
  - rewrite H, H0, H1. reflexivity.
Qed.

Lemma int_ground_names e : int_ground e = true -> int_names e = [].
Proof. destruct e; [discriminate|reflexivity]. Qed.

Lemma ground_names :
  (forall e, bv_ground e = true -> bv_names e = []) /\
  (forall b, bool_ground b = true -> bool_names b = []).
Proof.
  apply expr_mutind; cbn [bv_ground bool_ground bv_names bool_names]; intros;
    repeat match goal with
    | H : _ && _ = true |- _ => apply andb_true_iff in H as [? ?]
    end;
    repeat match goal with
    | IH : ?c = true -> _ = [], H : ?c = true |- _ => rewrite (IH H); clear IH
    end;
    rewrite ?int_ground_names by assumption; try reflexivity.
  discriminate.
Qed.

Lemma simplify_denote rho e : bv_denote rho (simplify e) = bv_denote rho e.
Proof.
  unfold simplify. destruct (bv_ground e) eqn:E; [|reflexivity].
  cbn [bv_denote]. rewrite wrap_small by apply bv_denote_range.
  apply bv_denote_ext. rewrite (proj1 ground_names e E). intros s [].
Qed.

Lemma model_eval_denote rho m e :
  bv_denote rho (model_eval m e) = bv_denote (override m rho) e.
Proof. unfold model_eval. rewrite simplify_denote. apply subst_denote. Qed.

(** *** The input of [eval] *)

Lemma eval_insn_denote_map rho insn regs regs' i :
  map (bv_denote rho) regs = map (bv_denote rho) regs' ->
  bv_denote rho (eval_insn insn regs i) = bv_denote rho (eval_insn insn regs' i).
Proof.
  intros H. unfold eval_insn.
  rewrite !dispatch_denote, !operand1_denote, !operand2_denote, <- !reg_denote, H.
  reflexivity.
Qed.

Lemma eval_loop_denote_map rho insns : forall i regs regs',
  map (bv_denote rho) regs = map (bv_denote rho) regs' ->
  map (bv_denote rho) (eval_loop insns i regs) =
  map (bv_denote rho) (eval_loop insns i regs').
Proof.
  induction insns as [|insn rest IH]; intros i regs regs' H; [assumption|].
  cbn [eval_loop]. apply IH. rewrite !map_app, H. cbn [map].
  now rewrite (eval_insn_denote_map rho insn regs regs' i H).
Qed.

(** [eval] uses its input through its value only. *)
Lemma eval_denote_input rho x x' insns :
  bv_denote rho x = bv_denote rho x' ->
  bv_denote rho (eval x insns) = bv_denote rho (eval x' insns).
Proof.
  intros H. unfold eval. rewrite <- !reg_denote. f_equal.
  apply eval_loop_denote_map. cbn [map]. now rewrite H.
Qed.

Lemma Evaluator_concrete_wrap x program :
  Evaluator_concrete (wrap x) program = Evaluator_concrete x program.
Proof. unfold Evaluator_concrete. now rewrite wrap_wrap. Qed.

(** *** The names of the variables *)

Lemma slot_name_not_x N s :
  In s (flat_map insn_names (fst (makeInsns N))) -> s <> "x".
Proof.
  unfold makeInsns. change 0 with (Z.of_nat 0). rewrite makeInsns_loop_eq.
  cbn [fst app]. intros Hin. apply in_flat_map in Hin as (insn & Hinsn & Hs).
  apply in_map_iff in Hinsn as (k & <- & _). rewrite slot_names in Hs.
  simpl in Hs. destruct Hs as [<-|[<-|[<-|[<-|[]]]]]; discriminate.
Qed.

Lemma input_x v : input v "x" = v.
Proof. reflexivity. Qed.

Lemma input_other v s : s <> "x" -> input v s = 0.
Proof.
  intros H. unfold input. destruct (String.eqb_spec s "x"); [contradiction|reflexivity].
Qed.

(** ** Soundness of the search *)

Lemma override_input_slot m v N s :
  In s (flat_map insn_names (fst (makeInsns N))) ->
  override m (input v) s = complete m s.
Proof.
  intros Hs. apply slot_name_not_x in Hs. unfold complete, override.
  destruct (m !! s); [reflexivity|]. now apply input_other.
Qed.

(** A program whose counterexample query has no solution computes the
    target on every input. *)
Lemma verified_program_correct N m program :
  reconstructProgram (fst (makeInsns N)) m = Ok program ->
  (forall rho,
     holds rho [ceAssertion (model_eval m (eval x_const (fst (makeInsns N))))] = false) ->
  forall x, Evaluator_concrete x program = spec_isPowerOfTwoOrZero (wrap x).
Proof.
  intros Hprog Hunsat x.
  assert (Heq : forall v,
    bv_denote (override m (input v)) (eval x_const (fst (makeInsns N))) =
    spec_isPowerOfTwoOrZero (wrap v)).
  { intros v. specialize (Hunsat (input v)).
    unfold holds, ceAssertion in Hunsat. cbn [forallb bool_denote] in Hunsat.
    rewrite andb_true_r in Hunsat. apply negb_false_iff, Z.eqb_eq in Hunsat.
    rewrite model_eval_denote in Hunsat. rewrite Hunsat.
    unfold targetProgram. rewrite isPowerOfTwoOrZero_denote. reflexivity. }
  destruct (m !! "x") as [w|] eqn:Ex.
  - exfalso. pose proof (Heq 0) as H0. pose proof (Heq 3) as H3.
    rewrite (bv_denote_ext _ (override m (input 3))) in H0.
    + rewrite H0 in H3. vm_compute in H3. discriminate H3.
    + intros s _. unfold override. destruct (m !! s) eqn:Es; [reflexivity|].
      rewrite !input_other; [reflexivity| |]; intros ->; congruence.
  - rewrite <- Evaluator_concrete_wrap, <- (wrap_wrap x), <- (Heq (wrap x)).
    replace (wrap (wrap x))
      with (bv_denote (override m (input (wrap x))) x_const).
    + apply (Evaluator_concrete_eval _ m); [|assumption].
      apply makeInsns_reads_as. intros s Hs. now apply (override_input_slot m _ N).
    + cbn [x_const bv_denote]. unfold override. rewrite Ex, input_x. reflexivity.
Qed.

Section Search.

Variable solver_check : list bool_expr -> check_result.
Variable cesolver_check : list bool_expr -> check_result.

(** What happened in a turn that printed a program and returned. *)
Lemma iteration_Done N tests stdout :
  iteration solver_check cesolver_check N tests = Ok (Done stdout) ->
  exists assertions m program,
    testAssertions (fst (makeInsns N)) tests = Ok assertions /\
    solver_check (snd (makeInsns N) ++ assertions) = sat m /\
    reconstructProgram (fst (makeInsns N)) m = Ok program /\
    printProgram program 0 = Ok stdout /\
    cesolver_check
      [ceAssertion (model_eval m (eval x_const (fst (makeInsns N))))] = unsat.
Proof.
  unfold iteration. destruct (makeInsns N) as [insns constraints]. cbn [fst snd].
  destruct (testAssertions insns tests) as [assertions| |]; try discriminate.
  cbn [mbind result_bind].
  destruct (solver_check (constraints ++ assertions)) as [m| |] eqn:Es;
    try discriminate.
  destruct (reconstructProgram insns m) as [program| |] eqn:Er; try discriminate.
  cbn [mbind result_bind].
  destruct (printProgram program 0) as [lines| |] eqn:Ep; try discriminate.
  cbn [mbind result_bind].
  destruct (cesolver_check _) as [cm| |] eqn:Ec; try discriminate.
  - destruct (get_numeral_uint64 (model_eval cm x_const)) as [t| |];
      cbn [mbind result_bind]; [|discriminate|discriminate].
    destruct (get_numeral_uint64 (model_eval cm _)) as [?| |];
      cbn [mbind result_bind]; [|discriminate|discriminate].
    destruct (get_numeral_uint64 (simplify _)) as [?| |];
      cbn [mbind result_bind]; discriminate.
  - cbn [mbind result_bind]. intros [= <-].
    exists assertions, m, program. repeat split; assumption.
Qed.

(** A search that returns went through a turn that returned. *)
Lemma search_Done fuel : forall N tests stdout,
  search solver_check cesolver_check fuel N tests = Some (Ok stdout) ->
  exists N' tests',
    iteration solver_check cesolver_check N' tests' = Ok (Done stdout).
Proof.
  induction fuel as [|fuel IH]; intros N tests stdout H; [discriminate|].
  cbn [search] in H.
  destruct (iteration solver_check cesolver_check N tests) as [[|t|out]| |] eqn:E;
    try discriminate H; eauto.
  injection H as <-. eauto.
Qed.

End Search.

(** C1. Soundness of the search.  When [main] returns after printing a
    program (exit code 0, no exception caught), and the [unsat] answers
    of the counterexample solver are right, the printed program is the
    text of a program that, run under the concrete semantics, computes
    the target on every register value [x]: what the target expression
    denotes at [x], which is 1 for zero and the powers of two and 0
    elsewhere. *)
Theorem main_sound (solver_check cesolver_check : list bool_expr -> check_result)
    (fuel : nat) (stdout : list string) :
  unsat_sound cesolver_check ->
  main solver_check cesolver_check fuel = Some (Exit 0 stdout None) ->
  exists program,
    printProgram program 0 = Ok stdout /\
    forall x, 0 <= x < modulus ->
      (forall rho, Evaluator_concrete x program =
                   bv_denote rho (targetProgram (bvConst x))) /\
      Evaluator_concrete x program = spec_isPowerOfTwoOrZero x.
Proof.
  intros Hsound Hmain. unfold main in Hmain.
  destruct (search solver_check cesolver_check fuel 1 []) as [[out| |]|] eqn:E;
    try discriminate Hmain.
  injection Hmain as <-.
  apply search_Done in E as (N & tests & E).
  apply iteration_Done in E as (assertions & m & program & _ & _ & Hprog & Hprint & Hce).
  exists program. split; [assumption|]. intros x Hx.
  pose proof (verified_program_correct N m program Hprog (Hsound _ Hce) x) as H.
  rewrite wrap_small in H by assumption. split; [|assumption].
  intros rho. unfold targetProgram. rewrite isPowerOfTwoOrZero_denote, H.
  cbn [bv_denote bvConst]. now rewrite wrap_small.
Qed.

(** ** Unknown answers *)

Section Unknown.

Variable solver_check : list bool_expr -> check_result.
Variable cesolver_check : list bool_expr -> check_result.

(** A turn in which a check answers unknown throws. *)
Lemma iteration_unknown N tests :
  check_unknown solver_check cesolver_check N tests ->
  iteration solver_check cesolver_check N tests = Throw "unexpected check value".
Proof.
  intros (assertions & Ha & H). unfold iteration.
  destruct (makeInsns N) as [insns constraints]. cbn [fst snd] in *.
  rewrite Ha. cbn [mbind result_bind].
  destruct H as [->|(m & program & -> & Hprog & Hce)]; [reflexivity|].
  rewrite Hprog. cbn [mbind result_bind].
  destruct (reconstructProgram_prints insns m program Hprog) as (lines & ->).
  cbn [mbind result_bind]. now rewrite Hce.
Qed.

(** Reaching a state takes finitely many turns. *)
Lemma reachable_search N tests :
  reachable solver_check cesolver_check N tests ->
  exists n, forall k,
    search solver_check cesolver_check (n + k) 1 [] =
    search solver_check cesolver_check k N tests.
Proof.
  induction 1 as [|N tests _ (n & IH) Hit|N tests t _ (n & IH) Hit].
  - exists 0%nat. reflexivity.
  - exists (S n). intros k. replace (S n + k)%nat with (n + S k)%nat by lia.
    rewrite IH. cbn [search]. now rewrite Hit.
  - exists (S n). intros k. replace (S n + k)%nat with (n + S k)%nat by lia.
    rewrite IH. cbn [search]. now rewrite Hit.
Qed.

End Unknown.

(** C9, as the code has it.  When a check answers neither [sat] nor
    [unsat] in a turn that [main] reaches, the turn throws, so the
    answer is not taken for [unsat] and the search stops there: [main]
    catches the exception, prints its message on the error stream and
    nothing on the output, and returns 0, the exit code of a success. *)
Theorem unknown_exits_0 (solver_check cesolver_check : list bool_expr -> check_result)
    (N : Z) (tests : list Z) :
  reachable solver_check cesolver_check N tests ->
  check_unknown solver_check cesolver_check N tests ->
  iteration solver_check cesolver_check N tests = Throw "unexpected check value" /\
  exists n, forall fuel, (n <= fuel)%nat ->
    main solver_check cesolver_check fuel =
    Some (Exit 0 [] (Some "unexpected check value")).
Proof.
  intros Hreach Hunknown.
  pose proof (iteration_unknown _ _ N tests Hunknown) as Hit.
  split; [assumption|].
  destruct (reachable_search _ _ N tests Hreach) as (n & Hn).
  exists (S n). intros fuel Hfuel. unfold main.
  replace fuel with (n + S (fuel - S n))%nat by lia.
  rewrite Hn. cbn [search]. now rewrite Hit.
Qed.

(** C9 as stated fails: with a solver that answers unknown, [main]
    returns 0, not 2. *)
Lemma unknown_exit_code_is_0 :
  main (fun _ => unknown) (fun _ => unknown) 1 =
  Some (Exit 0 [] (Some "unexpected check value")).
Proof. reflexivity. Qed.

(** ** The variables of the queries *)

Lemma reg_names regs j s :
  In s (bv_names (reg regs j)) -> exists e, In e regs /\ In s (bv_names e).
Proof.
  unfold reg. destruct (nth_in_or_default j regs (bvConst 0)) as [H| ->]; [eauto|].
  intros [].
Qed.

Lemma select_names sel regs n : forall acc s,
  In s (bv_names (select sel regs n acc)) ->
  In s (int_names sel) \/ (exists e, In e regs /\ In s (bv_names e)) \/
  In s (bv_names acc).
Proof.
  induction n as [|j IH]; intros acc s H; [auto|].
  cbn [select] in H. apply IH in H as [H|[H|H]]; auto.
  cbn [bv_names bool_names int_names] in H. rewrite !in_app_iff in H.
  destruct H as [[H|[]]|[H|H]]; auto. apply reg_names in H. auto.
Qed.

Lemma eval_insn_names insn regs i s :
  In s (bv_names (eval_insn insn regs i)) ->
  In s (insn_names insn) \/ exists e, In e regs /\ In s (bv_names e).
Proof.
  assert (H1 : In s (bv_names (operand1 insn regs i)) ->
    In s (insn_names insn) \/ exists e, In e regs /\ In s (bv_names e)).
  { intros H. apply select_names in H as [H|[H|H]]; auto.
    - left. unfold insn_names. rewrite !in_app_iff. auto.
    - apply reg_names in H. auto. }
  assert (H2 : In s (bv_names (operand2 insn regs i)) ->
    In s (insn_names insn) \/ exists e, In e regs /\ In s (bv_names e)).
  { intros H. apply select_names in H as [H|[H|H]]; auto;
      left; unfold insn_names; rewrite !in_app_iff; auto. }
  unfold eval_insn, dispatch, boolToBv, bvConst.
  cbn [bv_names bool_names int_names]. rewrite !in_app_iff. cbn [In].
  assert (H0 : In s (int_names (opcode insn)) -> In s (insn_names insn)).
  { intros H. unfold insn_names. rewrite !in_app_iff. auto. }
  tauto.
Qed.

Lemma eval_loop_names insns : forall i regs e s,
  In e (eval_loop insns i regs) -> In s (bv_names e) ->
  (exists e', In e' regs /\ In s (bv_names e')) \/
  In s (flat_map insn_names insns).
Proof.
  induction insns as [|insn rest IH]; intros i regs e s He Hs; [eauto|].
  cbn [eval_loop] in He.
  destruct (IH _ _ e s He Hs) as [(e' & He' & Hs')|H].
  - apply in_app_iff in He' as [He'|[<-|[]]]; [eauto|].
    apply eval_insn_names in Hs' as [Hs'|Hs']; [|auto].
    right. cbn [flat_map]. apply in_app_iff. auto.
  - right. cbn [flat_map]. apply in_app_iff. auto.
Qed.

Lemma eval_names x insns s :
  In s (bv_names (eval x insns)) ->
  In s (bv_names x) \/ In s (flat_map insn_names insns).
Proof.
  unfold eval. intros H. apply reg_names in H as (e & He & Hs).
  destruct (eval_loop_names insns 0%nat [x] e s He Hs) as [(e' & [<-|[]] & Hs')|H];
    auto.
Qed.

Lemma testAssertions_names insns tests : forall assertions s,
  testAssertions insns tests = Ok assertions ->
  In s (flat_map bool_names assertions) ->
  In s (flat_map insn_names insns).
Proof.
  induction tests as [|t rest IH]; intros assertions s H Hs.
  - injection H as <-. destruct Hs.
  - cbn [testAssertions] in H.
    destruct (get_numeral_uint64 _) as [c| |]; try discriminate H.
    cbn [mbind result_bind] in H.
    destruct (testAssertions insns rest) as [others| |]; try discriminate H.
    cbn [mbind result_bind] in H. injection H as <-.
    cbn [flat_map bool_names bv_names bvConst] in Hs.
    rewrite app_nil_r in Hs. apply in_app_iff in Hs as [Hs|Hs].
    + apply eval_names in Hs as [[]|Hs]. assumption.
    + now apply (IH others).
Qed.

Lemma constraints_names N s :
  In s (flat_map bool_names (snd (makeInsns N))) ->
  In s (flat_map insn_names (fst (makeInsns N))).
Proof.
  unfold makeInsns. change 0 with (Z.of_nat 0). rewrite makeInsns_loop_eq.
  cbn [fst snd app]. intros H.
  apply in_flat_map in H as (c & Hc & Hs).
  apply in_map_iff in Hc as (k & <- & Hk).
  apply in_flat_map. exists (slot k). split; [now apply in_map|].
  rewrite slot_names. cbn in Hs. cbn. tauto.
Qed.

(** The synthesis query does not mention the input variable. *)
Lemma query_names_not_x N tests assertions :
  testAssertions (fst (makeInsns N)) tests = Ok assertions ->
  ~ In "x" (flat_map bool_names (snd (makeInsns N) ++ assertions)).
Proof.
  intros Ha Hx. rewrite flat_map_app in Hx. apply in_app_iff in Hx as [Hx|Hx].
  - apply constraints_names in Hx. now apply slot_name_not_x in Hx.
  - apply (testAssertions_names _ _ _ _ Ha) in Hx. now apply slot_name_not_x in Hx.
Qed.

(** ** The test cases *)

Lemma get_numeral_uint64_denote rho e c :
  get_numeral_uint64 e = Ok c -> c = bv_denote rho e.
Proof. destruct e; try discriminate. now intros [= <-]. Qed.

Lemma get_numeral_x cm t :
  get_numeral_uint64 (model_eval cm x_const) = Ok t ->
  exists w, cm !! "x" = Some w /\ t = wrap w.
Proof.
  unfold model_eval, x_const. cbn [bv_subst].
  destruct (cm !! "x") as [w|]; [|discriminate].
  cbn. intros [= <-]. exists w. now rewrite wrap_wrap.
Qed.

Lemma spec_isPowerOfTwoOrZero_range v : 0 <= spec_isPowerOfTwoOrZero v < modulus.
Proof. unfold spec_isPowerOfTwoOrZero. destruct (_ || _); now vm_compute. Qed.

(** The assertion of a test case: the program gives the target's value. *)
Lemma testAssertions_In insns tests : forall assertions t,
  testAssertions insns tests = Ok assertions ->
  In t tests ->
  In (bv_eq (eval (bvConst t) insns) (bvConst (spec_isPowerOfTwoOrZero (wrap t))))
     assertions.
Proof.
  induction tests as [|t0 rest IH]; intros assertions t H Hin; [destruct Hin|].
  cbn [testAssertions] in H.
  destruct (get_numeral_uint64 _) as [c| |] eqn:Ec; try discriminate H.
  cbn [mbind result_bind] in H.
  destruct (testAssertions insns rest) as [others| |]; try discriminate H.
  cbn [mbind result_bind] in H. injection H as <-.
  destruct Hin as [->|Hin]; [left|right; now apply IH].
  apply (get_numeral_uint64_denote (fun _ => 0)) in Ec.
  rewrite simplify_denote in Ec. unfold targetProgram in Ec.
  rewrite isPowerOfTwoOrZero_denote in Ec. now rewrite Ec.
Qed.

Lemma holds_In rho q b : holds rho q = true -> In b q -> bool_denote rho b = true.
Proof. unfold holds. rewrite forallb_forall. auto. Qed.

Lemma extends_complete m : extends (complete m) m.
Proof. intros s v H. unfold complete, override. now rewrite H. Qed.

Lemma extends_override m rho : extends (override m rho) m.
Proof. intros s v H. unfold override. now rewrite H. Qed.

Section TestCases.

Variable solver_check : list bool_expr -> check_result.
Variable cesolver_check : list bool_expr -> check_result.

(** What happened in a turn that found a counterexample. *)
Lemma iteration_NextTestCase N tests t :
  iteration solver_check cesolver_check N tests = Ok (NextTestCase t) ->
  exists assertions m program cm,
    testAssertions (fst (makeInsns N)) tests = Ok assertions /\
    solver_check (snd (makeInsns N) ++ assertions) = sat m /\
    reconstructProgram (fst (makeInsns N)) m = Ok program /\
    cesolver_check
      [ceAssertion (model_eval m (eval x_const (fst (makeInsns N))))] = sat cm /\
    get_numeral_uint64 (model_eval cm x_const) = Ok t.
Proof.
  unfold iteration. destruct (makeInsns N) as [insns constraints]. cbn [fst snd].
  destruct (testAssertions insns tests) as [assertions| |]; try discriminate.
  cbn [mbind result_bind].
  destruct (solver_check (constraints ++ assertions)) as [m| |] eqn:Es;
    try discriminate.
  destruct (reconstructProgram insns m) as [program| |] eqn:Er; try discriminate.
  cbn [mbind result_bind].
  destruct (printProgram program 0) as [lines| |] eqn:Ep; try discriminate.
  cbn [mbind result_bind].
  destruct (cesolver_check _) as [cm| |] eqn:Ec; try discriminate.
  destruct (get_numeral_uint64 (model_eval cm x_const)) as [t'| |] eqn:Et;
    cbn [mbind result_bind]; [|discriminate|discriminate].
  destruct (get_numeral_uint64 (model_eval cm (model_eval m (eval x_const insns))))
    as [?| |]; cbn [mbind result_bind]; [|discriminate|discriminate].
  destruct (get_numeral_uint64 (simplify (targetProgram (bvConst t')))) as [?| |];
    cbn [mbind result_bind]; [|discriminate|discriminate].
  intros [= <-]. exists assertions, m, program, cm. repeat split; assumption.
Qed.

End TestCases.

Lemma target_value_spec t : target_value t = spec_isPowerOfTwoOrZero (wrap t).
Proof. unfold target_value, targetProgram. now rewrite isPowerOfTwoOrZero_denote. Qed.

(** A turn that finds a counterexample, with right [sat] answers. *)
Lemma iteration_appends (solver_check cesolver_check : list bool_expr -> check_result)
    (N : Z) (tests : list Z) (t : Z) :
  sat_sound solver_check ->
  sat_sound cesolver_check ->
  iteration solver_check cesolver_check N tests = Ok (NextTestCase t) ->
  (forall fuel,
     search solver_check cesolver_check (S fuel) N tests =
     search solver_check cesolver_check fuel N (tests ++ [t])) /\
  length (tests ++ [t]) = S (length tests) /\
  ~ In t tests /\
  exists assertions m program,
    testAssertions (fst (makeInsns N)) tests = Ok assertions /\
    solver_check (snd (makeInsns N) ++ assertions) = sat m /\
    reconstructProgram (fst (makeInsns N)) m = Ok program /\
    (exists rho, extends rho m /\
       bv_denote rho (eval (bvConst t) (fst (makeInsns N))) <> target_value t) /\
    ((forall s, In s (bv_names (eval (bvConst t) (fst (makeInsns N)))) ->
                is_Some (m !! s)) ->
       bv_denote (complete m) (eval (bvConst t) (fst (makeInsns N))) <> target_value t /\
       Evaluator_concrete t program <> target_value t).
Proof.
  intros Hsolver Hcesolver Hit.
  split; [intros fuel; cbn [search]; now rewrite Hit|].
  split; [rewrite length_app; simpl; lia|].
  apply iteration_NextTestCase in Hit
    as (assertions & m & program & cm & Ha & Hs & Hprog & Hce & Ht).
  apply get_numeral_x in Ht as (w & Hw & ->).
  destruct (Hsolver _ _ Hs) as (Hdom & Hmodel).
  destruct (Hcesolver _ _ Hce) as (_ & Hcemodel).
  assert (Hx : m !! "x" = None).
  { destruct (m !! "x") eqn:E; [|reflexivity]. exfalso.
    apply (query_names_not_x N tests assertions Ha). apply Hdom. now rewrite E. }
  set (rho := override m (complete cm)).
  rewrite target_value_spec, wrap_wrap.
  assert (Hrho : bv_denote rho (eval (bvConst (wrap w)) (fst (makeInsns N))) <>
                 spec_isPowerOfTwoOrZero (wrap w)).
  { specialize (Hcemodel (complete cm) (extends_complete cm)).
    unfold holds, ceAssertion in Hcemodel. cbn [forallb bool_denote] in Hcemodel.
    rewrite andb_true_r in Hcemodel. apply negb_true_iff, Z.eqb_neq in Hcemodel.
    rewrite model_eval_denote in Hcemodel. unfold targetProgram in Hcemodel.
    rewrite isPowerOfTwoOrZero_denote in Hcemodel. fold rho in Hcemodel.
    assert (Hxv : bv_denote (complete cm) x_const = wrap w).
    { cbn [x_const bv_denote]. unfold complete, override. now rewrite Hw. }
    rewrite Hxv in Hcemodel.
    rewrite (eval_denote_input rho (bvConst (wrap w)) x_const); [assumption|].
    cbn [bvConst x_const bv_denote]. unfold rho, override. rewrite Hx.
    unfold complete, override. rewrite Hw. apply wrap_wrap. }
  split.
  - intros Hin.
    pose proof (testAssertions_In _ _ _ _ Ha Hin) as Hassert.
    specialize (Hmodel rho (extends_override m _)).
    eapply holds_In in Hmodel; [|apply in_app_iff; right; exact Hassert].
    cbn [bool_denote bv_denote bvConst] in Hmodel. apply Z.eqb_eq in Hmodel.
    apply Hrho. cbn [bvConst]. rewrite Hmodel, wrap_wrap.
    apply wrap_small, spec_isPowerOfTwoOrZero_range.
  - exists assertions, m, program. repeat split; try assumption.
    + exists rho. split; [apply extends_override|assumption].
    + intros Heq. apply Hrho. rewrite <- Heq. apply bv_denote_ext.
      intros s Hs'.
      destruct (H s Hs') as (v & Hv). unfold rho, complete, override. now rewrite Hv.
    + intros Heq. apply Hrho. rewrite <- Heq.
      rewrite <- (Evaluator_concrete_wrap (wrap w)).
      rewrite (bv_denote_ext rho (complete m)).
      2:{ intros s Hs'. destruct (H s Hs') as (v & Hv).
          unfold rho, complete, override. now rewrite Hv. }
      change (wrap (wrap w)) with (bv_denote (complete m) (bvConst (wrap w))).
      symmetry. apply (Evaluator_concrete_eval (complete m) m); [|assumption].
      apply makeInsns_reads_as. reflexivity.
Qed.


(** The test cases of a state that [main] reaches are pairwise distinct. *)
Lemma reachable_NoDup (solver_check cesolver_check : list bool_expr -> check_result)
    (N : Z) (tests : list Z) :
  sat_sound solver_check ->
  sat_sound cesolver_check ->
  reachable solver_check cesolver_check N tests ->
  NoDup tests.
Proof.
  intros Hsolver Hcesolver. induction 1 as [|N tests _ IH _|N tests t _ IH Hit].
  - constructor.
  - assumption.
  - apply NoDup_app. split; [assumption|]. split; [|apply NoDup_singleton].
    intros t' Hin Ht'. apply list_elem_of_In in Hin.
    apply list_elem_of_In in Ht'. destruct Ht' as [<-|[]].
    now apply (iteration_appends _ _ N tests t Hsolver Hcesolver Hit).
Qed.

(** What does hold of the test cases.  A turn of the inner loop that
    goes on with the same number of instructions appends exactly one
    input [t] to the test cases.  When the [sat] answers of the two
    solvers are right, [t] is not among the test cases already, so the
    test cases of a run stay pairwise distinct, and [t] is a
    counterexample for the candidate as the counterexample query has
    it: some assignment that agrees with the model of the candidate
    gives the candidate's expression, at [t], a value that is not the
    target's.  When the model assigns all the variables that the
    candidate's expression has, that is the candidate the decoder
    reads: its expression under the model, and the decoded program run
    on [t], do not give the target's value. *)
Lemma test_case_appended (solver_check cesolver_check : list bool_expr -> check_result)
    (N : Z) (tests : list Z) (t : Z) :
  sat_sound solver_check ->
  sat_sound cesolver_check ->
  iteration solver_check cesolver_check N tests = Ok (NextTestCase t) ->
  (forall fuel,
     search solver_check cesolver_check (S fuel) N tests =
     search solver_check cesolver_check fuel N (tests ++ [t])) /\
  length (tests ++ [t]) = S (length tests) /\
  ~ In t tests /\
  (reachable solver_check cesolver_check N tests -> NoDup (tests ++ [t])) /\
  exists assertions m program,
    testAssertions (fst (makeInsns N)) tests = Ok assertions /\
    solver_check (snd (makeInsns N) ++ assertions) = sat m /\
    reconstructProgram (fst (makeInsns N)) m = Ok program /\
    (exists rho, extends rho m /\
       bv_denote rho (eval (bvConst t) (fst (makeInsns N))) <> target_value t) /\
    ((forall s, In s (bv_names (eval (bvConst t) (fst (makeInsns N)))) ->
                is_Some (m !! s)) ->
       bv_denote (complete m) (eval (bvConst t) (fst (makeInsns N))) <> target_value t /\
       Evaluator_concrete t program <> target_value t).
Proof.
  intros Hsolver Hcesolver Hit.
  destruct (iteration_appends _ _ N tests t Hsolver Hcesolver Hit)
    as (Hsearch & Hlen & Hnew & Hcand).
  repeat (split; [assumption|]). split; [|assumption].
  intros Hreach.
  apply (reachable_NoDup solver_check cesolver_check N); try assumption.
  now apply reachable_test.
Qed.

(** ** The example solvers *)

Lemma int_expr_eqb_eq a b : int_expr_eqb a b = true -> a = b.
Proof.
  destruct a, b; simpl; try discriminate.
  - intros H. apply String.eqb_eq in H. now subst.
  - intros H. apply Z.eqb_eq in H. now subst.
Qed.

Lemma expr_eqb_eq :
  (forall a b, bv_expr_eqb a b = true -> a = b) /\
  (forall a b, bool_expr_eqb a b = true -> a = b).
Proof.
  apply expr_mutind; intros;
    match goal with
    | H : _ ?a ?b = true |- ?a = ?b => destruct b; simpl in H; try discriminate H
    end;
    repeat match goal with
    | H : _ && _ = true |- _ => apply andb_true_iff in H as [? ?]
    | H : String.eqb _ _ = true |- _ => apply String.eqb_eq in H; subst
    | H : (_ =? _) = true |- _ => apply Z.eqb_eq in H; subst
    | H : int_expr_eqb _ _ = true |- _ => apply int_expr_eqb_eq in H; subst
    | IH : forall b, ?f ?a b = true -> ?a = b, H : ?f ?a _ = true |- _ =>
        apply IH in H; subst
    end; reflexivity.
Qed.

Lemma query_eqb_eq q : forall q', query_eqb q q' = true -> q = q'.
Proof.
  induction q as [|b q IH]; intros [|b' q'] H; try discriminate H; [reflexivity|].
  simpl in H. apply andb_true_iff in H as [Hb Hq].
  apply expr_eqb_eq in Hb. apply IH in Hq. now subst.
Qed.

Lemma answers_inv q0 r otherwise q a :
  answers q0 r otherwise q = a -> (q = q0 /\ a = r) \/ a = otherwise.
Proof.
  unfold answers. destruct (query_eqb q q0) eqn:E; intros <-; [left|now right].
  split; [now apply query_eqb_eq|reflexivity].
Qed.

Lemma holds_ext rho1 rho2 q :
  (forall s, In s (flat_map bool_names q) -> rho1 s = rho2 s) ->
  holds rho1 q = holds rho2 q.
Proof.
  unfold holds. induction q as [|b q IH]; intros H; [reflexivity|].
  cbn [forallb]. rewrite IH, (bool_denote_ext rho1 rho2 b); [reflexivity| |];
    intros s Hs; apply H; cbn [flat_map]; apply in_app_iff; auto.
Qed.

(** A model that assigns exactly the variables of a query, and makes
    it true, is a right [sat] answer. *)
Lemma sat_sound_answers q0 m :
  (forall s, is_Some (m !! s) <-> In s (flat_map bool_names q0)) ->
  holds (complete m) q0 = true ->
  sat_sound (answers q0 (sat m) unknown).
Proof.
  intros Hdom Hholds q m' H.
  apply answers_inv in H as [[-> [= ->]]|H]; [|discriminate H].
  split; [intros s; apply Hdom|].
  intros rho Hrho. rewrite <- Hholds. apply holds_ext.
  intros s Hs. apply Hdom in Hs as (v & Hv).
  unfold complete, override. rewrite Hv. now apply Hrho.
Qed.

(** *** The program [t = x - 1; u = t & x; r = (u == 0)] *)

Lemma land_odd_even a b : Z.land (2 * a + 1) (2 * b) = 2 * Z.land a b.
Proof.
  apply Z.bits_inj'. intros n Hn. rewrite Z.land_spec.
  destruct (Z.eq_dec n 0) as [->|Hne].
  - now rewrite Z.testbit_odd_0, !Z.testbit_even_0.
  - replace n with (Z.succ (n - 1)) by lia.
    rewrite Z.testbit_odd_succ, !Z.testbit_even_succ by lia.
    now rewrite Z.land_spec.
Qed.

Lemma land_even_odd a b : Z.land (2 * a) (2 * b + 1) = 2 * Z.land a b.
Proof. rewrite Z.land_comm, land_odd_even. f_equal. apply Z.land_comm. Qed.

(** Below [2^n], clearing the lowest set bit gives zero exactly for the
    powers of two. *)
Lemma land_pred_pow2 (n : nat) : forall v,
  0 < v < 2 ^ Z.of_nat n ->
  Z.land (v - 1) v = 0 <-> exists i, 0 <= i < Z.of_nat n /\ v = 2 ^ i.
Proof.
  induction n as [|n IH]; intros v Hv.
  - simpl in Hv. lia.
  - rewrite Nat2Z.inj_succ, Z.pow_succ_r in Hv by lia.
    destruct (Z.Even_or_Odd v) as [[u ->]|[u ->]].
    + replace (2 * u - 1) with (2 * (u - 1) + 1) by lia.
      rewrite land_odd_even.
      assert (Hu : 0 < u < 2 ^ Z.of_nat n) by lia.
      specialize (IH u Hu). split.
      * intros H. destruct (proj1 IH) as (i & Hi & ->); [lia|].
        exists (Z.succ i). split; [lia|]. rewrite Z.pow_succ_r by lia. reflexivity.
      * intros (i & Hi & Hpow).
        destruct (Z.eq_dec i 0) as [->|Hne]; [simpl in Hpow; lia|].
        replace i with (Z.succ (i - 1)) in Hpow by lia.
        rewrite Z.pow_succ_r in Hpow by lia.
        rewrite (proj2 IH); [reflexivity|]. exists (i - 1). split; lia.
    + replace (2 * u + 1 - 1) with (2 * u) by lia.
      rewrite land_even_odd, Z.land_diag. split.
      * intros H. exists 0. split; [lia|]. simpl. lia.
      * intros (i & Hi & Hpow).
        destruct (Z.eq_dec i 0) as [->|Hne]; [simpl in Hpow; lia|].
        replace i with (Z.succ (i - 1)) in Hpow by lia.
        rewrite Z.pow_succ_r in Hpow by lia. lia.
Qed.

Lemma land_pred_spec v :
  0 <= v < modulus ->
  (if Z.land (wrap (v - 1)) v =? 0 then 1 else 0) = spec_isPowerOfTwoOrZero v.
Proof.
  intros Hv. destruct (Z.eq_dec v 0) as [->|Hne]; [reflexivity|].
  rewrite wrap_small by lia.
  pose proof (land_pred_pow2 32 v) as H.
  destruct (Z.eqb_spec (Z.land (v - 1) v) 0) as [E|E]; symmetry.
  - apply spec_isPowerOfTwoOrZero_1. right.
    destruct (proj1 (H ltac:(change (2 ^ Z.of_nat 32) with modulus; lia)) E)
      as (i & Hi & ->).
    exists i. split; [lia|reflexivity].
  - apply spec_isPowerOfTwoOrZero_0. intros [->|(i & Hi & Hpow)]; [lia|].
    apply E, H; [change (2 ^ Z.of_nat 32) with modulus; lia|].
    exists i. split; [lia|assumption].
Qed.

Lemma final_program_correct v :
  0 <= v < modulus -> Evaluator_concrete v final_program = spec_isPowerOfTwoOrZero v.
Proof.
  intros Hv. rewrite <- land_pred_spec by assumption.
  unfold Evaluator_concrete, final_program. rewrite (wrap_small v) by assumption.
  reflexivity.
Qed.

Lemma list_to_map_is_Some (l : list (string * Z)) s :
  is_Some ((list_to_map l : model) !! s) <-> In s (map fst l).
Proof.
  induction l as [|[k v] l IH]; cbn [list_to_map foldr map In fst].
  - rewrite lookup_empty. split; [intros [? [=]]|intros []].
  - rewrite lookup_insert_is_Some, IH. destruct (decide (k = s)); tauto.
Qed.

Lemma In_existsb s l : existsb (String.eqb s) l = true -> In s l.
Proof.
  intros H. apply existsb_exists in H as (s' & Hin & E).
  apply String.eqb_eq in E. now subst.
Qed.

(** Membership in a list of names, by computation. *)
Ltac names_in := apply In_existsb; vm_compute; reflexivity.

Lemma final_model_decodes :
  reconstructProgram (fst (makeInsns 3)) final_model = Ok final_program.
Proof. vm_compute. reflexivity. Qed.

Lemma final_model_total : total_on final_model (fst (makeInsns 3)).
Proof.
  intros s Hs. apply list_to_map_is_Some.
  vm_compute in Hs. repeat (destruct Hs as [<-|Hs]; [names_in|]). destruct Hs.
Qed.

(** The counterexample query of the three-instruction program has no
    solution. *)
Lemma final_query_unsat rho :
  holds rho [ceAssertion (model_eval final_model (eval x_const (fst (makeInsns 3))))]
  = false.
Proof.
  unfold holds, ceAssertion. cbn [forallb bool_denote].
  rewrite andb_true_r. apply negb_false_iff, Z.eqb_eq.
  rewrite model_eval_denote.
  rewrite <- (Evaluator_concrete_eval (override final_model rho) final_model
                _ x_const final_program).
  - unfold targetProgram. rewrite isPowerOfTwoOrZero_denote.
    assert (Hx : bv_denote (override final_model rho) x_const = bv_denote rho x_const)
      by reflexivity.
    rewrite Hx. apply final_program_correct, bv_denote_range.
  - apply makeInsns_reads_as. intros s Hs.
    destruct (final_model_total s Hs) as (v & Hv).
    unfold complete, override. now rewrite Hv.
  - apply final_model_decodes.
Qed.

Lemma final_cesolver_unsat : unsat_sound final_cesolver.
Proof.
  intros q H rho. apply answers_inv in H as [[-> _]|H]; [|discriminate H].
  apply final_query_unsat.
Qed.

Lemma first_solver_sat : sat_sound first_solver.
Proof.
  apply sat_sound_answers; [|vm_compute; reflexivity].
  intros s. unfold first_model. rewrite list_to_map_is_Some. vm_compute. tauto.
Qed.

Lemma first_cesolver_sat : sat_sound first_cesolver.
Proof.
  apply sat_sound_answers; [|vm_compute; reflexivity].
  intros s. unfold first_cemodel. rewrite list_to_map_is_Some. split; intros H.
  - cbn [map fst In] in H.
    repeat (destruct H as [<-|H]; [names_in|]). destruct H.
  - vm_compute in H.
    repeat (destruct H as [<-|H]; [names_in|]). destruct H.
Qed.

Lemma first_iteration :
  iteration first_solver first_cesolver 1 [] = Ok (NextTestCase 3).
Proof. vm_compute. reflexivity. Qed.

Lemma first_model_decodes :
  reconstructProgram (fst (makeInsns 1)) first_model = Ok first_program.
Proof. vm_compute. reflexivity. Qed.

(** C8 fails on the code in the first turn of [main].  The candidate's
    expression is evaluated in the model without model completion, so
    the variables the model leaves out stay free in the counterexample
    query, while the decoder reads them as 0.  The model of the empty
    synthesis query, with right answers of both solvers, leaves the
    selectors out; the decoder prints [sub r0, r0, r1], and the
    counterexample solver, which is free to choose the selectors,
    answers with the input 3 for the opcode CMPEQ.  The turn appends 3,
    on which the printed candidate gives 0, as the target does: the
    appended input is no counterexample for the candidate. *)
Lemma appended_input_agrees_with_candidate :
  sat_sound first_solver /\
  sat_sound first_cesolver /\
  iteration first_solver first_cesolver 1 [] = Ok (NextTestCase 3) /\
  first_solver (snd (makeInsns 1)) = sat first_model /\
  reconstructProgram (fst (makeInsns 1)) first_model = Ok first_program /\
  printProgram first_program 0 = Ok ["sub r0, r0, r1"] /\
  bv_denote (complete first_model) (eval (bvConst 3) (fst (makeInsns 1))) =
    target_value 3 /\
  Evaluator_concrete 3 first_program = target_value 3.
Proof.
  split; [apply first_solver_sat|]. split; [apply first_cesolver_sat|].
  split; [apply first_iteration|]. repeat split.
Qed.

(** ** Instances *)

Lemma main_sound_witness :
  unsat_sound final_cesolver /\
  main final_solver final_cesolver 3 =
    Some (Exit 0 ["sub r0, 0x1, r1"; "and r1, r0, r2"; "cmpeq r2, 0x0, r3"] None) /\
  exists program,
    printProgram program 0 =
      Ok ["sub r0, 0x1, r1"; "and r1, r0, r2"; "cmpeq r2, 0x0, r3"] /\
    forall x, 0 <= x < modulus ->
      (forall rho, Evaluator_concrete x program =
                   bv_denote rho (targetProgram (bvConst x))) /\
      Evaluator_concrete x program = spec_isPowerOfTwoOrZero x.
Proof.
  assert (H1 : unsat_sound final_cesolver) by exact final_cesolver_unsat.
  assert (H2 : main final_solver final_cesolver 3 =
    Some (Exit 0 ["sub r0, 0x1, r1"; "and r1, r0, r2"; "cmpeq r2, 0x0, r3"] None))
    by (vm_compute; reflexivity).
  split; [exact H1|]. split; [exact H2|].
  exact (main_sound final_solver final_cesolver 3 _ H1 H2).
Defined.

Lemma evaluator_decoder_agreement_witness :
  (forall s, In s (flat_map insn_names (fst (makeInsns 3))) ->
     complete final_model s = complete final_model s) /\
  reconstructProgram (fst (makeInsns 3)) final_model = Ok final_program /\
  (forall insn, In insn (fst (makeInsns 3)) -> selectors_fit final_model insn) /\
  bv_denote (complete final_model) (eval (bvConst 8) (fst (makeInsns 3))) =
    Evaluator_concrete (bv_denote (complete final_model) (bvConst 8)) final_program /\
  exists program, reconstructProgram (fst (makeInsns 3)) final_model = Ok program.
Proof.
  assert (H1 : forall s, In s (flat_map insn_names (fst (makeInsns 3))) ->
     complete final_model s = complete final_model s) by reflexivity.
  assert (H2 : reconstructProgram (fst (makeInsns 3)) final_model = Ok final_program)
    by (vm_compute; reflexivity).
  assert (H3 : forall insn, In insn (fst (makeInsns 3)) ->
     selectors_fit final_model insn).
  { intros insn [<-|[<-|[<-|[]]]]; repeat split. }
  split; [exact H1|]. split; [exact H2|]. split; [exact H3|].
  destruct (evaluator_decoder_agreement 3 final_model (complete final_model)
              (bvConst 8) H1) as (Hagree & Htotal).
  split; [exact (Hagree final_program H2)|exact (Htotal H3)].
Defined.

Lemma isPowerOfTwoOrZero_correct_witness :
  0 <= 8 < modulus /\ 0 <= 6 < modulus /\
  bv_denote (fun _ => 0) (isPowerOfTwoOrZero (bvConst 8)) = 1 /\
  bv_denote (fun _ => 0) (isPowerOfTwoOrZero (bvConst 6)) = 0.
Proof.
  assert (H8 : 0 <= 8 < modulus) by (vm_compute; split; [discriminate|reflexivity]).
  assert (H6 : 0 <= 6 < modulus) by (vm_compute; split; [discriminate|reflexivity]).
  split; [exact H8|]. split; [exact H6|]. split.
  - apply (isPowerOfTwoOrZero_correct (fun _ => 0) 8 H8).
    right. exists 3. split; [lia|reflexivity].
  - destruct (isPowerOfTwoOrZero_correct (fun _ => 0) 6 H6) as (_ & H0 & Hpop).
    apply H0. intros H. apply Hpop in H. vm_compute in H. lia.
Defined.

Lemma eval_operand_selection_witness :
  fst (makeInsns 2) !! 1%nat = Some (slot 1) /\
  let rho := input 5 in
  let regs := eval_loop (fst (makeInsns 2)) 0 [x_const] in
  reg regs 2 =
    dispatch (opcode (slot 1)) (operand1 (slot 1) regs 1) (operand2 (slot 1) regs 1) /\
  bv_denote rho (operand1 (slot 1) regs 1) =
    (if in_range (int_denote rho (r1 (slot 1))) 1
     then bv_denote rho (reg regs (Z.to_nat (int_denote rho (r1 (slot 1)))))
     else bv_denote rho (reg regs 1)) /\
  bv_denote rho (operand2 (slot 1) regs 1) =
    (if in_range (int_denote rho (r2 (slot 1))) 1
     then bv_denote rho (reg regs (Z.to_nat (int_denote rho (r2 (slot 1)))))
     else bv_denote rho (imm (slot 1))).
Proof.
  assert (H : fst (makeInsns 2) !! 1%nat = Some (slot 1)) by reflexivity.
  split; [exact H|].
  exact (eval_operand_selection (input 5) x_const (fst (makeInsns 2)) 1 (slot 1) H).
Defined.

Lemma eval_opcode_dispatch_witness :
  fst (makeInsns 2) !! 1%nat = Some (slot 1) /\
  let rho := input 5 in
  let regs := eval_loop (fst (makeInsns 2)) 0 [x_const] in
  let in1 := bv_denote rho (operand1 (slot 1) regs 1) in
  let in2 := bv_denote rho (operand2 (slot 1) regs 1) in
  let op := int_denote rho (opcode (slot 1)) in
  bv_denote rho (reg regs 2) =
    if op =? AND then Z.land in1 in2
    else if op =? CMPEQ then (if in1 =? in2 then 1 else 0)
    else (in1 - in2) mod 2 ^ 32.
Proof.
  assert (H : fst (makeInsns 2) !! 1%nat = Some (slot 1)) by reflexivity.
  split; [exact H|].
  exact (eval_opcode_dispatch (input 5) x_const (fst (makeInsns 2)) 1 (slot 1) H).
Defined.

Lemma makeInsns_correct_witness :
  0 <= 2 /\
  Z.of_nat (length (fst (makeInsns 2))) = 2 /\
  Z.of_nat (length (snd (makeInsns 2))) = 2 /\
  (forall i, (i < Z.to_nat 2)%nat ->
     let prefix := "op" +:+ to_string (Z.of_nat i) in
     fst (makeInsns 2) !! i =
       Some {| opcode := int_const (prefix +:+ "_op");
               r1 := int_const (prefix +:+ "_r1");
               r2 := int_const (prefix +:+ "_r2");
               imm := bv_const (prefix +:+ "_imm") |} /\
     snd (makeInsns 2) !! i =
       Some (bv_ult (bv_const (prefix +:+ "_imm")) (bv_val 0xff))) /\
  length (flat_map insn_names (fst (makeInsns 2))) = (4 * Z.to_nat 2)%nat /\
  NoDup (flat_map insn_names (fst (makeInsns 2))) /\
  snd (makeInsns 2) =
    map (fun insn => bv_ult (imm insn) (bv_val 0xff)) (fst (makeInsns 2)) /\
  flat_map bool_names (snd (makeInsns 2)) =
    flat_map (fun insn => bv_names (imm insn)) (fst (makeInsns 2)) /\
  forall rho, holds rho (snd (makeInsns 2)) =
              forallb (fun insn => bv_denote rho (imm insn) <? 0xff) (fst (makeInsns 2)).
Proof.
  assert (H : 0 <= 2) by lia.
  split; [exact H|]. exact (makeInsns_correct 2 H).
Defined.

Lemma reconstructProgram_total_witness :
  (forall insn, In insn (map newSymbolicInsn ["op0"; "op1"; "op2"]) ->
     selectors_fit final_model insn) /\
  exists program,
    reconstructProgram (map newSymbolicInsn ["op0"; "op1"; "op2"]) final_model
      = Ok program /\
    length program = 3%nat /\
    forall i insn, map newSymbolicInsn ["op0"; "op1"; "op2"] !! i = Some insn ->
      program !! i =
      Some (decode (Z.of_nat i)
              (int_denote (complete final_model) (opcode insn))
              (int_denote (complete final_model) (r1 insn))
              (int_denote (complete final_model) (r2 insn))
              (bv_denote (complete final_model) (imm insn))).
Proof.
  assert (H : forall insn, In insn (map newSymbolicInsn ["op0"; "op1"; "op2"]) ->
     selectors_fit final_model insn).
  { intros insn [<-|[<-|[<-|[]]]]; repeat split. }
  split; [exact H|].
  exact (reconstructProgram_total final_model ["op0"; "op1"; "op2"] H).
Defined.

Lemma test_case_appended_witness :
  sat_sound first_solver /\
  sat_sound first_cesolver /\
  iteration first_solver first_cesolver 1 [] = Ok (NextTestCase 3) /\
  (forall fuel,
     search first_solver first_cesolver (S fuel) 1 [] =
     search first_solver first_cesolver fuel 1 ([] ++ [3])) /\
  length ([] ++ [3]) = 1%nat /\
  ~ In 3 [] /\
  (reachable first_solver first_cesolver 1 [] -> NoDup ([] ++ [3])) /\
  exists assertions m program,
    testAssertions (fst (makeInsns 1)) [] = Ok assertions /\
    first_solver (snd (makeInsns 1) ++ assertions) = sat m /\
    reconstructProgram (fst (makeInsns 1)) m = Ok program /\
    (exists rho, extends rho m /\
       bv_denote rho (eval (bvConst 3) (fst (makeInsns 1))) <> target_value 3) /\
    ((forall s, In s (bv_names (eval (bvConst 3) (fst (makeInsns 1)))) ->
                is_Some (m !! s)) ->
       bv_denote (complete m) (eval (bvConst 3) (fst (makeInsns 1))) <> target_value 3 /\
       Evaluator_concrete 3 program <> target_value 3).
Proof.
  assert (H1 : sat_sound first_solver) by exact first_solver_sat.
  assert (H2 : sat_sound first_cesolver) by exact first_cesolver_sat.
  assert (H3 : iteration first_solver first_cesolver 1 [] = Ok (NextTestCase 3))
    by exact first_iteration.
  split; [exact H1|]. split; [exact H2|]. split; [exact H3|].
  exact (test_case_appended first_solver first_cesolver 1 [] 3 H1 H2 H3).
Defined.

Lemma unknown_exits_0_witness :
  reachable (fun _ => unknown) (fun _ => unknown) 1 [] /\
  check_unknown (fun _ => unknown) (fun _ => unknown) 1 [] /\
  iteration (fun _ => unknown) (fun _ => unknown) 1 [] =
    Throw "unexpected check value" /\
  exists n, forall fuel, (n <= fuel)%nat ->
    main (fun _ => unknown) (fun _ => unknown) fuel =
    Some (Exit 0 [] (Some "unexpected check value")).
Proof.
  assert (H1 : reachable (fun _ => unknown) (fun _ => unknown) 1 [])
    by apply reachable_start.
  assert (H2 : check_unknown (fun _ => unknown) (fun _ => unknown) 1 []).
  { exists []. split; [reflexivity|]. left. reflexivity. }
  split; [exact H1|]. split; [exact H2|].
  exact (unknown_exits_0 (fun _ => unknown) (fun _ => unknown) 1 [] H1 H2).
Defined.

Lemma reconstructProgram_well_formed_witness :
  reconstructProgram (fst (makeInsns 3)) final_model = Ok final_program /\
  (forall i insn, final_program !! i = Some insn ->
     well_formed insn (Z.of_nat i) /\
     forall dest, exists s, toString insn dest = Ok s) /\
  exists lines, printProgram final_program 0 = Ok lines.
Proof.
  assert (H : reconstructProgram (fst (makeInsns 3)) final_model = Ok final_program)
    by (vm_compute; reflexivity).
  split; [exact H|].
  exact (reconstructProgram_well_formed (fst (makeInsns 3)) final_model final_program H).
Defined.

(** * Further properties of the code *)

(** ** The assertions of the test cases *)

Lemma isPowerOfTwoOrZero_loop_ground count x : forall r p,
  bv_ground x = true -> bool_ground r = true ->
  bool_ground (isPowerOfTwoOrZero_loop count x r p) = true.
Proof.
  induction count as [|count IH]; intros r p Hx Hr; [assumption|].
  cbn [isPowerOfTwoOrZero_loop]. apply IH; [assumption|].
  cbn [bool_ground bv_ground bvConst]. now rewrite Hr, Hx.
Qed.

Lemma targetProgram_numeral t :
  get_numeral_uint64 (simplify (targetProgram (bvConst t))) = Ok (target_value t).
Proof.
  assert (Hg : bv_ground (targetProgram (bvConst t)) = true).
  { unfold targetProgram, isPowerOfTwoOrZero, boolToBv. cbn [bv_ground bvConst].
    rewrite isPowerOfTwoOrZero_loop_ground; reflexivity. }
  unfold simplify. rewrite Hg. cbn [get_numeral_uint64]. f_equal.
  apply wrap_small, bv_denote_range.
Qed.

(** The loop that adds the test cases to the solver never throws: the
    target at a numeral simplifies to a numeral, and the loop adds, for
    each test case and in order, the assertion that the program's
    expression at the test case equals the target's value there. *)
Lemma testAssertions_eq (insns : list SymbolicInsn) (testCases : list Z) :
  testAssertions insns testCases =
  Ok (map (fun t => bv_eq (eval (bvConst t) insns) (bvConst (target_value t)))
        testCases).
Proof.
  induction testCases as [|t rest IH]; [reflexivity|].
  cbn [testAssertions map]. rewrite targetProgram_numeral, IH. reflexivity.
Qed.

(** ** How [main] ends *)

Lemma testAssertions_Ok insns testCases :
  exists assertions, testAssertions insns testCases = Ok assertions.
Proof.
  induction testCases as [|t rest (others & IH)]; [eexists; reflexivity|].
  cbn [testAssertions]. rewrite targetProgram_numeral, IH. eexists. reflexivity.
Qed.

Lemma reconstructInsn_not_Ok m insn i :
  (exists d, reconstructInsn m insn i = Ok d) \/
  reconstructInsn m insn i = Throw "numeral does not fit in machine int".
Proof.
  unfold reconstructInsn. rewrite !getIntDefault_eval.
  destruct (fits_int (int_denote (complete m) (opcode insn))); [|now right].
  destruct (fits_int (int_denote (complete m) (r1 insn))); [|now right].
  destruct (fits_int (int_denote (complete m) (r2 insn))); [|now right].
  cbn [mbind result_bind]. left.
  destruct (_ || _); [|eexists; reflexivity].
  unfold getUint64Default.
  destruct (model_eval m (imm insn)); cbn; eexists; reflexivity.
Qed.

Lemma reconstructProgram_loop_not_Ok m insns : forall i program,
  (exists result, reconstructProgram_loop m insns i program = Ok result) \/
  reconstructProgram_loop m insns i program =
    Throw "numeral does not fit in machine int".
Proof.
  induction insns as [|insn rest IH]; intros i program; [left; eexists; reflexivity|].
  cbn [reconstructProgram_loop].
  destruct (reconstructInsn_not_Ok m insn i) as [(d & ->)| ->]; [|now right].
  cbn [mbind result_bind]. apply IH.
Qed.

Lemma int_subst_ground m e :
  (forall s, In s (int_names e) -> is_Some (m !! s)) ->
  int_ground (int_subst m e) = true.
Proof.
  destruct e as [name|v]; [|reflexivity]. cbn [int_names int_subst]. intros H.
  destruct (H name (or_introl eq_refl)) as (v & ->). reflexivity.
Qed.

(** Under a model that assigns all its variables an expression becomes
    ground. *)
Lemma subst_ground m :
  (forall e, (forall s, In s (bv_names e) -> is_Some (m !! s)) ->
             bv_ground (bv_subst m e) = true) /\
  (forall b, (forall s, In s (bool_names b) -> is_Some (m !! s)) ->
             bool_ground (bool_subst m b) = true).
Proof.
  apply expr_mutind;
    cbn [bv_subst bool_subst bv_ground bool_ground bv_names bool_names]; intros;
    repeat match goal with
    | IH : (forall s, In s ?l -> _) -> _ = true |- _ =>
        rewrite IH by (intros s' Hs'; match goal with
                         | H : forall s, In s _ -> is_Some _ |- _ =>
                             apply H; rewrite ?in_app_iff; auto
                         end);
        clear IH
    end;
    rewrite ?int_subst_ground
      by (intros s' Hs'; match goal with
            | H : forall s, In s _ -> is_Some _ |- _ =>
                apply H; rewrite ?in_app_iff; auto
            end);
    try reflexivity.
  destruct (H name (or_introl eq_refl)) as (v & ->). reflexivity.
Qed.

Lemma model_eval_numeral cm e :
  (forall s, In s (bv_names e) -> is_Some (cm !! s)) ->
  exists v, get_numeral_uint64 (model_eval cm e) = Ok v.
Proof.
  intros H. unfold model_eval, simplify.
  rewrite (proj1 (subst_ground cm) e H). eexists. reflexivity.
Qed.

Lemma targetProgram_names_x : In "x" (bv_names (targetProgram x_const)).
Proof. vm_compute. now left. Qed.

Section Outcome.

Variable solver_check : list bool_expr -> check_result.
Variable cesolver_check : list bool_expr -> check_result.
Hypothesis Hcomplete : sat_complete cesolver_check.

(** A turn never calls [abort()], and throws one of two messages. *)
Lemma iteration_outcome N tests :
  (exists st, iteration solver_check cesolver_check N tests = Ok st) \/
  (exists msg, In msg messages /\
     iteration solver_check cesolver_check N tests = Throw msg).
Proof.
  unfold iteration. destruct (makeInsns N) as [insns constraints].
  rewrite testAssertions_eq. cbn [mbind result_bind].
  destruct (solver_check _) as [m| |].
  - destruct (reconstructProgram_loop_not_Ok m insns 0 []) as [(program & Hp)|Hp];
      unfold reconstructProgram; rewrite Hp; cbn [mbind result_bind].
    + destruct (reconstructProgram_prints insns m program Hp) as (lines & ->).
      cbn [mbind result_bind]. destruct (cesolver_check _) as [cm| |] eqn:Ec.
      * pose proof (Hcomplete _ _ Ec) as Hcm.
        unfold ceAssertion in Hcm. cbn [flat_map bool_names] in Hcm.
        rewrite app_nil_r in Hcm.
        destruct (model_eval_numeral cm x_const) as (t & ->).
        { intros s [<-|[]]. apply Hcm. apply in_app_iff. right.
          apply targetProgram_names_x. }
        cbn [mbind result_bind].
        destruct (model_eval_numeral cm (model_eval m (eval x_const insns)))
          as (v & ->).
        { intros s Hs. apply Hcm. apply in_app_iff. now left. }
        cbn [mbind result_bind].
        rewrite targetProgram_numeral. cbn [mbind result_bind]. left. eexists. reflexivity.
      * left. eexists. reflexivity.
      * right. eexists. split; [|reflexivity]. cbn. tauto.
    + right. eexists. split; [|reflexivity]. cbn. tauto.
  - left. eexists. reflexivity.
  - right. eexists. split; [|reflexivity]. cbn. tauto.
Qed.

Lemma search_outcome fuel : forall N tests,
  search solver_check cesolver_check fuel N tests = None \/
  (exists stdout, search solver_check cesolver_check fuel N tests = Some (Ok stdout)) \/
  (exists msg, In msg messages /\
     search solver_check cesolver_check fuel N tests = Some (Throw msg)).
Proof.
  induction fuel as [|fuel IH]; intros N tests; [now left|].
  cbn [search].
  destruct (iteration_outcome N tests) as [([|t|stdout] & ->)|(msg & Hmsg & ->)].
  - apply IH.
  - apply IH.
  - right. left. eexists. reflexivity.
  - right. right. exists msg. now split.
Qed.

End Outcome.

(** When the models of the counterexample solver assign every variable
    of its query, so that the input and the candidate's value read from
    them are numerals, [main] never ends in [abort()], however the
    solvers answer: as long as it has not ended it is still searching,
    and when it ends it returns 0, either after printing a program,
    with no exception caught, or after catching an exception, with
    nothing printed on the output; the message caught is the one of
    [main] for a check that is neither [sat] nor [unsat], or the one of
    [get_numeral_int] for a selector that does not fit an [int]. *)
Theorem main_outcome (solver_check cesolver_check : list bool_expr -> check_result)
    (fuel : nat) :
  sat_complete cesolver_check ->
  main solver_check cesolver_check fuel = None \/
  (exists stdout,
     main solver_check cesolver_check fuel = Some (Exit 0 stdout None)) \/
  (exists msg, In msg messages /\
     main solver_check cesolver_check fuel = Some (Exit 0 [] (Some msg))).
Proof.
  intros Hcomplete. unfold main.
  destruct (search_outcome solver_check cesolver_check Hcomplete fuel 1 [])
    as [-> |[(stdout & ->)|(msg & Hmsg & ->)]].
  - now left.
  - right. left. eexists. reflexivity.
  - right. right. exists msg. now split.
Qed.

(** ** The states of the search *)

(** In every state that [main] reaches the number of instructions is at
    least 1 and every test case is a register value, below [2^32]: a
    test case is read from the counterexample model as the numeral of a
    bit-vector of width 32, so [bvConst] never truncates one. *)
Theorem reachable_state (solver_check cesolver_check : list bool_expr -> check_result)
    (N : Z) (tests : list Z) :
  reachable solver_check cesolver_check N tests ->
  1 <= N /\ forall t, In t tests -> 0 <= t < modulus.
Proof.
  induction 1 as [|N tests _ (HN & IH) _|N tests t _ (HN & IH) Hit].
  - split; [lia|]. intros t [].
  - split; [lia|assumption].
  - split; [assumption|]. intros t' Hin. apply in_app_iff in Hin as [Hin|[<-|[]]].
    + now apply IH.
    + apply iteration_NextTestCase in Hit as (_ & _ & _ & cm & _ & _ & _ & _ & Ht).
      apply get_numeral_x in Ht as (w & _ & ->). apply wrap_range.
Qed.

Lemma reachable_state_witness :
  reachable first_solver first_cesolver 1 [3] /\
  1 <= 1 /\ forall t, In t [3] -> 0 <= t < modulus.
Proof.
  assert (H : reachable first_solver first_cesolver 1 [3]).
  { apply (reachable_test first_solver first_cesolver 1 [] 3).
    - apply reachable_start.
    - apply first_iteration. }
  split; [exact H|]. exact (reachable_state first_solver first_cesolver 1 [3] H).
Defined.

(** ** The immediates of a decoded program *)

Lemma zero_range : 0 <= 0 < modulus.
Proof. split; [apply Z.le_refl|reflexivity]. Qed.

Lemma reconstructInsn_imm m insn i d :
  reconstructInsn m insn i = Ok d -> 0 <= insn_imm d < modulus.
Proof.
  unfold reconstructInsn.
  destruct (getIntDefault (model_eval_int m (opcode insn)) 0) as [op| |];
    try discriminate. cbn [mbind result_bind].
  destruct (getIntDefault (model_eval_int m (r1 insn)) 0) as [v1| |];
    try discriminate. cbn [mbind result_bind].
  destruct (getIntDefault (model_eval_int m (r2 insn)) 0) as [v2| |];
    try discriminate. cbn [mbind result_bind].
  destruct (_ || _).
  - unfold getUint64Default.
    destruct (model_eval m (imm insn));
      cbn [is_numeral get_numeral_uint64 mbind result_bind];
      intros [= <-]; cbn [insn_imm]; (apply zero_range || apply wrap_range).
  - intros [= <-]. cbn [insn_imm]. apply zero_range.
Qed.

(** The decoder takes an immediate from the model only where the
    builder's constraint holds: when the model, completed with 0,
    satisfies the constraints of [makeInsns], every instruction of the
    decoded program has an immediate field below [0xff]. *)
Theorem reconstructProgram_imm_bound (N : Z) (m : model) (program : list Insn) :
  holds (complete m) (snd (makeInsns N)) = true ->
  reconstructProgram (fst (makeInsns N)) m = Ok program ->
  forall insn, In insn program -> 0 <= insn_imm insn < 0xff.
Proof.
  intros Hholds Hprog insn Hin.
  apply list_elem_of_In, list_elem_of_lookup in Hin as (k & Hk).
  unfold reconstructProgram in Hprog.
  apply reconstructProgram_loop_Ok in Hprog as (decoded & -> & Hlen & Hall).
  cbn [app] in Hk.
  assert (Hlt : (k < length (fst (makeInsns N)))%nat).
  { rewrite <- Hlen. now apply lookup_lt_Some in Hk. }
  destruct (lookup_lt_is_Some_2 _ _ Hlt) as (sym & Hsym).
  destruct (Hall k sym Hsym) as (d & Hd & Hdec).
  rewrite Hk in Hd. injection Hd as <-.
  pose proof (reconstructInsn_imm _ _ _ _ Hdec) as Hrange.
  split; [lia|].
  assert (Hsymin : In sym (fst (makeInsns N))).
  { apply list_elem_of_In. eapply list_elem_of_lookup_2. eassumption. }
  apply reconstructInsn_Ok in Hdec as (_ & v & -> & Hv).
  rewrite (Hv (makeInsns_atomic N sym Hsymin)).
  unfold decode. cbn [insn_imm]. destruct (in_range _ _); [lia|].
  assert (Hc : In (bv_ult (imm sym) (bv_val 0xff)) (snd (makeInsns N))).
  { revert Hsymin. unfold makeInsns. change 0 with (Z.of_nat 0).
    rewrite makeInsns_loop_eq. cbn [fst snd app]. intros Hsymin.
    apply in_map_iff in Hsymin as (j & <- & Hj). apply in_map_iff. eauto. }
  apply (holds_In _ _ _ Hholds) in Hc. cbn [bool_denote bv_denote] in Hc.
  apply Z.ltb_lt in Hc. exact Hc.
Qed.

Lemma reconstructProgram_imm_bound_witness :
  holds (complete final_model) (snd (makeInsns 3)) = true /\
  reconstructProgram (fst (makeInsns 3)) final_model = Ok final_program /\
  forall insn, In insn final_program -> 0 <= insn_imm insn < 0xff.
Proof.
  assert (H1 : holds (complete final_model) (snd (makeInsns 3)) = true)
    by (vm_compute; reflexivity).
  assert (H2 : reconstructProgram (fst (makeInsns 3)) final_model = Ok final_program)
    by (vm_compute; reflexivity).
  split; [exact H1|]. split; [exact H2|].
  exact (reconstructProgram_imm_bound 3 final_model final_program H1 H2).
Defined.

(** ** The candidate and the test cases *)

Lemma target_value_range t : 0 <= target_value t < modulus.
Proof. apply bv_denote_range. Qed.

(** A candidate is right on every test case.  When the synthesis solver
    answers [sat] to the query of a turn and its answers are right, the
    candidate's expression has the target's value at every test case
    under every assignment that agrees with the model, and the program
    that [reconstructProgram] decodes from the model, run on a test
    case, gives the target's value. *)
Theorem candidate_fits_tests (solver_check : list bool_expr -> check_result)
    (N : Z) (tests : list Z) (assertions : list bool_expr) (m : model) :
  sat_sound solver_check ->
  testAssertions (fst (makeInsns N)) tests = Ok assertions ->
  solver_check (snd (makeInsns N) ++ assertions) = sat m ->
  (forall rho t, extends rho m -> In t tests ->
     bv_denote rho (eval (bvConst t) (fst (makeInsns N))) = target_value t) /\
  (forall program t,
     reconstructProgram (fst (makeInsns N)) m = Ok program -> In t tests ->
     Evaluator_concrete t program = target_value t).
Proof.
  intros Hsound Ha Hs. destruct (Hsound _ _ Hs) as (_ & Hmodel).
  rewrite testAssertions_eq in Ha. injection Ha as <-.
  assert (Hsym : forall rho t, extends rho m -> In t tests ->
     bv_denote rho (eval (bvConst t) (fst (makeInsns N))) = target_value t).
  { intros rho t Hrho Hin. specialize (Hmodel rho Hrho).
    eapply holds_In in Hmodel.
    2:{ apply in_app_iff. right.
        apply (in_map (fun t => bv_eq (eval (bvConst t) (fst (makeInsns N)))
                                  (bvConst (target_value t))) tests t Hin). }
    cbn [bool_denote bv_denote bvConst] in Hmodel. apply Z.eqb_eq in Hmodel.
    rewrite Hmodel. apply wrap_small, target_value_range. }
  split; [exact Hsym|].
  intros program t Hprog Hin.
  rewrite <- (Hsym (complete m) t (extends_complete m) Hin).
  rewrite <- Evaluator_concrete_wrap.
  change (wrap t) with (bv_denote (complete m) (bvConst t)).
  apply (Evaluator_concrete_eval (complete m) m); [|assumption].
  apply makeInsns_reads_as. reflexivity.
Qed.

Lemma second_solver_sat : sat_sound second_solver.
Proof.
  apply sat_sound_answers; [|vm_compute; reflexivity].
  intros s. unfold second_model. rewrite list_to_map_is_Some. split; intros H.
  - cbn [map fst In] in H.
    repeat (destruct H as [<-|H]; [names_in|]). destruct H.
  - vm_compute in H.
    repeat (destruct H as [<-|H]; [names_in|]). destruct H.
Qed.

Lemma candidate_fits_tests_witness :
  sat_sound second_solver /\
  testAssertions (fst (makeInsns 1)) [3] =
    Ok [bv_eq (eval (bvConst 3) (fst (makeInsns 1))) (bvConst (target_value 3))] /\
  second_solver (snd (makeInsns 1) ++
    [bv_eq (eval (bvConst 3) (fst (makeInsns 1))) (bvConst (target_value 3))])
    = sat second_model /\
  (forall rho t, extends rho second_model -> In t [3] ->
     bv_denote rho (eval (bvConst t) (fst (makeInsns 1))) = target_value t) /\
  (forall program t,
     reconstructProgram (fst (makeInsns 1)) second_model = Ok program -> In t [3] ->
     Evaluator_concrete t program = target_value t).
Proof.
  assert (H1 : sat_sound second_solver) by exact second_solver_sat.
  assert (H2 : testAssertions (fst (makeInsns 1)) [3] =
    Ok [bv_eq (eval (bvConst 3) (fst (makeInsns 1))) (bvConst (target_value 3))])
    by (vm_compute; reflexivity).
  assert (H3 : second_solver (snd (makeInsns 1) ++
    [bv_eq (eval (bvConst 3) (fst (makeInsns 1))) (bvConst (target_value 3))])
    = sat second_model) by (vm_compute; reflexivity).
  split; [exact H1|]. split; [exact H2|]. split; [exact H3|].
  exact (candidate_fits_tests second_solver 1 [3] _ second_model H1 H2 H3).
Defined.

(** ** What the decoder reads *)

Lemma int_subst_ext m m' e :
  (forall s, In s (int_names e) -> m !! s = m' !! s) ->
  int_subst m e = int_subst m' e.
Proof.
  destruct e as [s|n]; cbn; [|reflexivity]. intros H. rewrite (H s); auto.
Qed.

Lemma subst_ext (m m' : model) :
  (forall e, (forall s, In s (bv_names e) -> m !! s = m' !! s) ->
             bv_subst m e = bv_subst m' e) /\
  (forall b, (forall s, In s (bool_names b) -> m !! s = m' !! s) ->
             bool_subst m b = bool_subst m' b).
Proof.
  apply expr_mutind; intros; cbn [bv_subst bool_subst bv_names bool_names] in *;
    repeat match goal with
    | IH : (forall s, In s ?n -> _) -> _ = _,
      H : forall s, In s _ -> m !! s = m' !! s |- _ =>
        rewrite IH by (intros; apply H; rewrite ?in_app_iff; tauto); clear IH
    | H : forall s, In s (int_names ?a ++ _) -> m !! s = m' !! s
      |- context [int_subst m ?a] =>
        rewrite (int_subst_ext m m' a)
          by (intros; apply H; rewrite ?in_app_iff; tauto)
    | H : forall s, In s (_ ++ int_names ?a) -> m !! s = m' !! s
      |- context [int_subst m ?a] =>
        rewrite (int_subst_ext m m' a)
          by (intros; apply H; rewrite ?in_app_iff; tauto)
    end; try reflexivity.
  rewrite H by now left. reflexivity.
Qed.

Lemma reconstructInsn_ext m m' insn i :
  (forall s, In s (insn_names insn) -> m !! s = m' !! s) ->
  reconstructInsn m insn i = reconstructInsn m' insn i.
Proof.
  intros H. unfold reconstructInsn, model_eval_int, model_eval.
  rewrite (int_subst_ext m m' (opcode insn)), (int_subst_ext m m' (r1 insn)),
    (int_subst_ext m m' (r2 insn)), (proj1 (subst_ext m m') (imm insn));
    [reflexivity| | | |]; intros s Hs; apply H; unfold insn_names;
    rewrite !in_app_iff; tauto.
Qed.

Lemma reconstructProgram_loop_ext m m' insns : forall i program,
  (forall s, In s (flat_map insn_names insns) -> m !! s = m' !! s) ->
  reconstructProgram_loop m insns i program =
  reconstructProgram_loop m' insns i program.
Proof.
  induction insns as [|insn rest IH]; intros i program H; [reflexivity|].
  cbn [reconstructProgram_loop].
  rewrite (reconstructInsn_ext m m' insn i)
    by (intros s Hs; apply H; cbn [flat_map]; apply in_app_iff; auto).
  destruct (reconstructInsn m' insn i); cbn [mbind result_bind]; try reflexivity.
  apply IH. intros s Hs. apply H. cbn [flat_map]. apply in_app_iff. auto.
Qed.

(** The decoder reads nothing but the variables of the symbolic
    instructions: two models that agree on them, in what they assign
    and in what they leave out, are decoded alike, up to the exception
    thrown. *)
Theorem reconstructProgram_ext (insns : list SymbolicInsn) (m m' : model) :
  (forall s, In s (flat_map insn_names insns) -> m !! s = m' !! s) ->
  reconstructProgram insns m = reconstructProgram insns m'.
Proof. intros H. now apply reconstructProgram_loop_ext. Qed.

Lemma reconstructProgram_ext_witness :
  (forall s, In s (flat_map insn_names (fst (makeInsns 3))) ->
     final_model !! s = (<[ "x" := 5 ]> final_model : model) !! s) /\
  reconstructProgram (fst (makeInsns 3)) final_model =
  reconstructProgram (fst (makeInsns 3)) (<[ "x" := 5 ]> final_model).
Proof.
  assert (H : forall s, In s (flat_map insn_names (fst (makeInsns 3))) ->
     final_model !! s = (<[ "x" := 5 ]> final_model : model) !! s).
  { intros s Hs. apply slot_name_not_x in Hs. symmetry. apply lookup_insert_ne.
    congruence. }
  split; [exact H|].
  exact (reconstructProgram_ext (fst (makeInsns 3)) final_model
           (<[ "x" := 5 ]> final_model) H).
Defined.

(** ** The printed text *)

Lemma append_assoc (a b c : string) : (a +:+ b) +:+ c = a +:+ (b +:+ c).
Proof.
  induction a as [|ch a IH]; [reflexivity|].
  change (String ch ((a +:+ b) +:+ c) = String ch (a +:+ (b +:+ c))). now f_equal.
Qed.

(** A decimal numeral followed by a comma can be read back. *)
Lemma decimal_comma (d : Decimal.uint) : forall (d' : Decimal.uint) s s',
  DecimalString.NilEmpty.string_of_uint d +:+ String ","%char s =
  DecimalString.NilEmpty.string_of_uint d' +:+ String ","%char s' ->
  d = d' /\ s = s'.
Proof.
  induction d as [|d IH|d IH|d IH|d IH|d IH|d IH|d IH|d IH|d IH|d IH];
    intros [|d'|d'|d'|d'|d'|d'|d'|d'|d'|d'] s s' H; simpl in H;
    try discriminate H;
    try (injection H as H; destruct (IH _ _ _ H) as [-> ->]; now split).
  injection H as ->. now split.
Qed.

(** The numeral of an [int]: digits, after a minus sign for a negative
    number. *)
Lemma to_string_shape z :
  exists d : Decimal.uint, d <> Decimal.Nil /\
    ((0 <= z /\ to_string z = DecimalString.NilEmpty.string_of_uint d /\
      Z.of_uint d = z) \/
     (z < 0 /\ to_string z = String "-"%char (DecimalString.NilEmpty.string_of_uint d) /\
      Z.of_uint d = - z)).
Proof.
  unfold to_string. destruct z as [|p|p]; cbn [Z.to_int].
  - exists (Decimal.D0 Decimal.Nil). split; [discriminate|]. left. repeat split. lia.
  - exists (Pos.to_uint p). split; [apply DecimalPos.Unsigned.to_uint_nonnil|].
    left. split; [lia|]. split.
    + cbn. pose proof (DecimalPos.Unsigned.to_uint_nonnil p).
      destruct (Pos.to_uint p); [contradiction|reflexivity..].
    + unfold Z.of_uint. now rewrite DecimalPos.Unsigned.of_to.
  - exists (Pos.to_uint p). split; [apply DecimalPos.Unsigned.to_uint_nonnil|].
    right. split; [lia|]. split.
    + cbn. pose proof (DecimalPos.Unsigned.to_uint_nonnil p).
      destruct (Pos.to_uint p); [contradiction|reflexivity..].
    + unfold Z.of_uint. now rewrite DecimalPos.Unsigned.of_to.
Qed.

Lemma to_string_comma z z' s s' :
  to_string z +:+ String ","%char s = to_string z' +:+ String ","%char s' ->
  z = z' /\ s = s'.
Proof.
  destruct (to_string_shape z) as (d & Hd & [(Hz & -> & Hv)|(Hz & -> & Hv)]);
    destruct (to_string_shape z') as (d' & Hd' & [(Hz' & -> & Hv')|(Hz' & -> & Hv')]);
    intros H.
  - apply decimal_comma in H as [-> ->]. split; [lia|reflexivity].
  - exfalso. destruct d; [contradiction|discriminate H..].
  - exfalso. destruct d'; [contradiction|discriminate H..].
  - cbn in H. injection H as H. apply decimal_comma in H as [-> ->].
    split; [lia|reflexivity].
Qed.

Lemma to_string_inj z z' : to_string z = to_string z' -> z = z'.
Proof.
  intros H. apply (to_string_comma z z' "" ""). now rewrite H.
Qed.

(** A hexadecimal numeral followed by a comma can be read back. *)
Lemma hexadecimal_comma (d : Hexadecimal.uint) : forall (d' : Hexadecimal.uint) s s',
  HexadecimalString.NilEmpty.string_of_uint d +:+ String ","%char s =
  HexadecimalString.NilEmpty.string_of_uint d' +:+ String ","%char s' ->
  d = d' /\ s = s'.
Proof.
  induction d as [|d IH|d IH|d IH|d IH|d IH|d IH|d IH|d IH|d IH|d IH
                  |d IH|d IH|d IH|d IH|d IH|d IH];
    intros [|d'|d'|d'|d'|d'|d'|d'|d'|d'|d'|d'|d'|d'|d'|d'|d'] s s' H; simpl in H;
    try discriminate H;
    try (injection H as H; destruct (IH _ _ _ H) as [-> ->]; now split).
  injection H as ->. now split.
Qed.

Lemma hex_shape x :
  exists d : Hexadecimal.uint,
    hex x = HexadecimalString.NilEmpty.string_of_uint d /\
    N.of_hex_uint d = Z.to_N (wrap64 x) /\
    HexadecimalString.NilZero.uint_of_string (hex x) = Some d.
Proof.
  unfold hex. destruct (Z.to_N (wrap64 x)) as [|p] eqn:E.
  - exists (Hexadecimal.D0 Hexadecimal.Nil). repeat split.
  - exists (Pos.to_hex_uint p).
    pose proof (HexadecimalPos.Unsigned.to_uint_nonnil p) as Hnn.
    split; [|split].
    + cbn [N.to_hex_uint]. unfold HexadecimalString.NilZero.string_of_uint.
      destruct (Pos.to_hex_uint p); [contradiction|reflexivity..].
    + now rewrite HexadecimalPos.Unsigned.of_to.
    + cbn [N.to_hex_uint]. now apply HexadecimalString.NilZero.usu.
Qed.

Lemma wrap64_range x : 0 <= wrap64 x < 2 ^ 64.
Proof. unfold wrap64. apply Z.mod_pos_bound. reflexivity. Qed.

Lemma hex_comma x x' s s' :
  hex x +:+ String ","%char s = hex x' +:+ String ","%char s' ->
  wrap64 x = wrap64 x' /\ s = s'.
Proof.
  destruct (hex_shape x) as (d & -> & Hd & _).
  destruct (hex_shape x') as (d' & -> & Hd' & _). intros H.
  apply hexadecimal_comma in H as [-> ->]. split; [|reflexivity].
  rewrite Hd in Hd'. pose proof (wrap64_range x). pose proof (wrap64_range x'). lia.
Qed.

(** [hex] writes the hexadecimal numeral of its argument reduced to 64
    bits: read back as a hexadecimal numeral, the text gives that
    number, so two arguments are written alike exactly when they are
    equal modulo [2^64]. *)
Theorem hex_reads_back (x : Z) :
  option_map N.of_hex_uint (HexadecimalString.NilZero.uint_of_string (hex x)) =
    Some (Z.to_N (x mod 2 ^ 64)) /\
  forall x', hex x = hex x' <-> x mod 2 ^ 64 = x' mod 2 ^ 64.
Proof.
  split.
  - destruct (hex_shape x) as (d & _ & Hd & ->). cbn. now rewrite Hd.
  - intros x'. split.
    + intros H. apply (hex_comma x x' "" ""). now rewrite H.
    + intros H. unfold hex, wrap64. now rewrite H.
Qed.

Lemma toString_Ok insn dest s :
  toString insn dest = Ok s ->
  (insn_opcode insn = SUB \/ insn_opcode insn = AND \/ insn_opcode insn = CMPEQ) /\
  s = mnemonic (insn_opcode insn) +:+ " r" +:+ to_string (insn_r1 insn) +:+
      String ","%char (" " +:+ operand_text insn +:+
      String ","%char (" r" +:+ to_string dest)).
Proof.
  unfold toString, mnemonic, operand_text, SUB, AND, CMPEQ.
  destruct (Z.eqb_spec (insn_opcode insn) 0) as [E|N0];
    [|destruct (Z.eqb_spec (insn_opcode insn) 1) as [E|N1];
      [|destruct (Z.eqb_spec (insn_opcode insn) 2) as [E|N2]; [|discriminate]]];
    cbn [mbind result_bind]; intros [= <-]; (split; [tauto|]);
    destruct (insn_isImm insn); rewrite !append_assoc; reflexivity.
Qed.

Lemma toString_inj_fields (insn insn' : Insn) (dest dest' : Z) (s : string) :
  toString insn dest = Ok s ->
  toString insn' dest' = Ok s ->
  insn_opcode insn = insn_opcode insn' /\
  insn_r1 insn = insn_r1 insn' /\
  insn_isImm insn = insn_isImm insn' /\
  (if insn_isImm insn
   then insn_imm insn mod 2 ^ 64 = insn_imm insn' mod 2 ^ 64
   else insn_r2 insn = insn_r2 insn') /\
  dest = dest'.
Proof.
  intros H H'. apply toString_Ok in H as (Hop & ->).
  apply toString_Ok in H' as (Hop' & H').
  assert (Hm : insn_opcode insn = insn_opcode insn' /\
               to_string (insn_r1 insn) +:+
                 String ","%char (" " +:+ operand_text insn +:+
                 String ","%char (" r" +:+ to_string dest)) =
               to_string (insn_r1 insn') +:+
                 String ","%char (" " +:+ operand_text insn' +:+
                 String ","%char (" r" +:+ to_string dest'))).
  { destruct Hop as [E|[E|E]], Hop' as [E'|[E'|E']]; rewrite E, E' in H' |- *;
      cbn in H'; try discriminate H'; (split; [reflexivity|]);
      injection H' as H'; exact H'. }
  destruct Hm as (Hopeq & Hrest).
  apply to_string_comma in Hrest as (Hr1 & Hrest).
  cbn in Hrest. injection Hrest as Hrest.
  assert (Hfinal : forall a b : Z, " r" +:+ to_string a = " r" +:+ to_string b -> a = b).
  { intros a b Hab. cbn in Hab. injection Hab as Hab. now apply to_string_inj. }
  unfold operand_text in Hrest.
  destruct (insn_isImm insn), (insn_isImm insn'); cbn in Hrest;
    try discriminate Hrest; injection Hrest as Hrest.
  - rewrite !append_assoc in Hrest || idtac.
    apply hex_comma in Hrest as (Himm & Hd). repeat split; auto.
  - apply to_string_comma in Hrest as (Hr2 & Hd). repeat split; auto.
Qed.

(** The text of an instruction shows its opcode, its first source, its
    second operand and its destination: two instructions printed alike
    have the same opcode, the same [r1], both an immediate or both a
    second register, the same immediate modulo [2^64] or the same
    [r2], and the same destination. *)
Theorem toString_inj (insn insn' : Insn) (dest dest' : Z) (s : string) :
  toString insn dest = Ok s ->
  toString insn' dest' = Ok s ->
  insn_opcode insn = insn_opcode insn' /\
  insn_r1 insn = insn_r1 insn' /\
  insn_isImm insn = insn_isImm insn' /\
  (if insn_isImm insn
   then insn_imm insn mod 2 ^ 64 = insn_imm insn' mod 2 ^ 64
   else insn_r2 insn = insn_r2 insn') /\
  dest = dest'.
Proof. apply toString_inj_fields. Qed.

Lemma toString_inj_witness :
  toString (mkInsn SUB 0 0 true 1) 1 = Ok "sub r0, 0x1, r1" /\
  toString (mkInsn SUB 0 5 true (2 ^ 64 + 1)) 1 = Ok "sub r0, 0x1, r1" /\
  SUB = SUB /\ 0 = 0 /\ true = true /\
  1 mod 2 ^ 64 = (2 ^ 64 + 1) mod 2 ^ 64 /\ 1 = 1.
Proof.
  assert (H1 : toString (mkInsn SUB 0 0 true 1) 1 = Ok "sub r0, 0x1, r1")
    by reflexivity.
  assert (H2 : toString (mkInsn SUB 0 5 true (2 ^ 64 + 1)) 1 = Ok "sub r0, 0x1, r1")
    by reflexivity.
  split; [exact H1|]. split; [exact H2|].
  exact (toString_inj (mkInsn SUB 0 0 true 1) (mkInsn SUB 0 5 true (2 ^ 64 + 1))
           1 1 "sub r0, 0x1, r1" H1 H2).
Defined.

Lemma canonical_eq a b :
  canonical a -> canonical b ->
  insn_opcode a = insn_opcode b -> insn_r1 a = insn_r1 b ->
  insn_isImm a = insn_isImm b ->
  (if insn_isImm a then insn_imm a mod 2 ^ 64 = insn_imm b mod 2 ^ 64
   else insn_r2 a = insn_r2 b) ->
  a = b.
Proof.
  destruct a as [op1 a1 a2 ai av], b as [op2 b1 b2 bi bv].
  unfold canonical. cbn [insn_opcode insn_r1 insn_r2 insn_isImm insn_imm].
  intros Ha Hb Hop H1 Hi H. subst op2 b1 bi.
  assert (Hm : modulus < 2 ^ 64) by reflexivity.
  destruct Ha as [(Ei & Er & Ha)|(Ei & Ev)]; subst ai;
    destruct Hb as [(E & Er' & Hb)|(E & Ev')]; try discriminate E.
  - subst a2 b2. rewrite !Z.mod_small in H by lia. now subst bv.
  - now subst av bv b2.
Qed.

Lemma printProgram_canonical_inj P : forall P' i lines,
  Forall canonical P -> Forall canonical P' ->
  printProgram P i = Ok lines -> printProgram P' i = Ok lines -> P = P'.
Proof.
  induction P as [|a P IH]; intros [|b P'] i lines HP HP' H H'.
  - reflexivity.
  - cbn in H, H'. injection H as <-.
    destruct (toString b (i + 1)); cbn in H'; try discriminate H'.
    destruct (printProgram P' (i + 1)); cbn in H'; discriminate H'.
  - cbn in H, H'. injection H' as <-.
    destruct (toString a (i + 1)); cbn in H; try discriminate H.
    destruct (printProgram P (i + 1)); cbn in H; discriminate H.
  - cbn [printProgram] in H, H'.
    destruct (toString a (i + 1)) as [la| |] eqn:Ea; try discriminate H.
    destruct (toString b (i + 1)) as [lb| |] eqn:Eb; try discriminate H'.
    cbn [mbind result_bind] in H, H'.
    destruct (printProgram P (i + 1)) as [ls| |] eqn:EP; try discriminate H.
    destruct (printProgram P' (i + 1)) as [ls'| |] eqn:EP'; try discriminate H'.
    cbn [mbind result_bind] in H, H'. injection H as <-.
    injection H' as Hl Hls. subst lb ls'.
    apply Forall_cons in HP as (Ha & HP). apply Forall_cons in HP' as (Hb & HP').
    destruct (toString_inj_fields a b (i + 1) (i + 1) la Ea Eb) as (H1 & H2 & H3 & H4 & _).
    f_equal.
    + now apply canonical_eq.
    + now apply (IH P' (i + 1) ls).
Qed.

Lemma reconstructProgram_canonical insns m program :
  reconstructProgram insns m = Ok program -> Forall canonical program.
Proof.
  intros H. apply Forall_lookup. intros k d Hk.
  pose proof (reconstructProgram_lookup insns m program k d H Hk) as (_ & _ & Hwf).
  unfold reconstructProgram in H.
  apply reconstructProgram_loop_Ok in H as (decoded & -> & Hlen & Hall).
  cbn [app] in Hk.
  assert (Hlt : (k < length insns)%nat).
  { rewrite <- Hlen. now apply lookup_lt_Some in Hk. }
  destruct (lookup_lt_is_Some_2 _ _ Hlt) as (sym & Hsym).
  destruct (Hall k sym Hsym) as (d' & Hd & Hdec).
  rewrite Hk in Hd. injection Hd as <-.
  apply reconstructInsn_imm in Hdec.
  destruct Hwf as [(Hi & Hr)|(Hi & _ & Hv)]; [left|right]; auto.
Qed.

(** The printed text identifies the decoded program: two programs that
    [reconstructProgram] returns and that the printing loop of [main]
    prints alike are the same program. *)
Theorem printed_program_inj (insns insns' : list SymbolicInsn) (m m' : model)
    (program program' : list Insn) :
  reconstructProgram insns m = Ok program ->
  reconstructProgram insns' m' = Ok program' ->
  printProgram program 0 = printProgram program' 0 ->
  program = program'.
Proof.
  intros H H' Hprint.
  destruct (reconstructProgram_prints insns m program H) as (lines & Hl).
  apply (printProgram_canonical_inj program program' 0 lines).
  - now apply (reconstructProgram_canonical insns m).
  - now apply (reconstructProgram_canonical insns' m').
  - assumption.
  - now rewrite <- Hprint.
Qed.

Lemma printed_program_inj_witness :
  reconstructProgram (fst (makeInsns 3)) final_model = Ok final_program /\
  reconstructProgram (fst (makeInsns 3)) (<[ "x" := 5 ]> final_model) =
    Ok final_program /\
  printProgram final_program 0 = printProgram final_program 0 /\
  final_program = final_program.
Proof.
  assert (H1 : reconstructProgram (fst (makeInsns 3)) final_model = Ok final_program)
    by (vm_compute; reflexivity).
  assert (H2 : reconstructProgram (fst (makeInsns 3)) (<[ "x" := 5 ]> final_model) =
    Ok final_program) by (vm_compute; reflexivity).
  assert (H3 : printProgram final_program 0 = printProgram final_program 0)
    by reflexivity.
  split; [exact H1|]. split; [exact H2|]. split; [exact H3|].
  exact (printed_program_inj _ _ _ _ _ _ H1 H2 H3).
Defined.

(** ** Every program has a model *)

Lemma encode_from_keys program : forall k,
  map fst (encode_from k program) =
  flat_map insn_names (map slot (seq k (length program))).
Proof.
  induction program as [|insn rest IH]; intros k; [reflexivity|].
  cbn [encode_from length seq map flat_map]. rewrite map_app, IH. reflexivity.
Qed.

Lemma encode_from_In program : forall k j insn e,
  program !! j = Some insn ->
  In e (encode_insn (k + j) insn) -> In e (encode_from k program).
Proof.
  induction program as [|insn0 rest IH]; intros k j insn e Hj He; [discriminate|].
  cbn [encode_from]. apply in_app_iff. destruct j as [|j]; cbn in Hj.
  - injection Hj as ->. left. now rewrite Nat.add_0_r in He.
  - right. apply (IH (S k) j insn); [assumption|].
    now replace (S k + j)%nat with (k + S j)%nat by lia.
Qed.

Lemma encode_lookup program j insn s v :
  program !! j = Some insn ->
  In (s, v) (encode_insn j insn) ->
  encode program !! s = Some v.
Proof.
  intros Hj He. unfold encode. apply elem_of_list_to_map_1.
  - apply NoDup_ListNoDup.
    assert (E : (encode_from 0 program).*1 = map fst (encode_from 0 program)).
    { generalize (encode_from 0 program). intros l.
      induction l as [|a l IH]; [reflexivity|]. cbn. now rewrite IH. }
    rewrite E, encode_from_keys. apply NoDup_ListNoDup, slots_names_NoDup.
  - apply list_elem_of_In. now apply (encode_from_In program 0%nat j insn).
Qed.

(** Decoding the model of instruction [j]. *)
Lemma reconstructInsn_encode program (j : nat) insn :
  program !! j = Some insn ->
  well_formed insn (Z.of_nat j) -> 0 <= insn_imm insn < modulus ->
  Z.of_nat j <= INT_MAX ->
  reconstructInsn (encode program) (slot j) (Z.of_nat j) = Ok insn.
Proof.
  intros Hj (Hop & Hr1 & Hr2) Himm Hmax.
  assert (Lop : complete (encode program)
                  ("op" +:+ to_string (Z.of_nat j) +:+ "_op") = insn_opcode insn).
  { unfold complete, override.
    rewrite (encode_lookup program j insn _ (insn_opcode insn) Hj); [reflexivity|].
    cbn. tauto. }
  assert (L1 : complete (encode program)
                 ("op" +:+ to_string (Z.of_nat j) +:+ "_r1") = insn_r1 insn).
  { unfold complete, override.
    rewrite (encode_lookup program j insn _ (insn_r1 insn) Hj); [reflexivity|].
    cbn. tauto. }
  assert (L2 : complete (encode program)
                 ("op" +:+ to_string (Z.of_nat j) +:+ "_r2") =
               if insn_isImm insn then -1 else insn_r2 insn).
  { unfold complete, override.
    rewrite (encode_lookup program j insn _
               (if insn_isImm insn then -1 else insn_r2 insn) Hj); [reflexivity|].
    cbn. tauto. }
  assert (Li : complete (encode program)
                 ("op" +:+ to_string (Z.of_nat j) +:+ "_imm") = insn_imm insn).
  { unfold complete, override.
    rewrite (encode_lookup program j insn _ (insn_imm insn) Hj); [reflexivity|].
    cbn. tauto. }
  assert (HM : INT_MAX = 2147483647) by reflexivity.
  assert (Hmin : INT_MIN = -2147483648) by reflexivity.
  rewrite reconstructInsn_fits.
  - f_equal. unfold slot, newSymbolicInsn. cbn [opcode r1 r2 imm int_denote bv_denote].
    change (("op" +:+ to_string (Z.of_nat j)) +:+ "_op")
      with ("op" +:+ to_string (Z.of_nat j) +:+ "_op").
    change (("op" +:+ to_string (Z.of_nat j)) +:+ "_r1")
      with ("op" +:+ to_string (Z.of_nat j) +:+ "_r1").
    change (("op" +:+ to_string (Z.of_nat j)) +:+ "_r2")
      with ("op" +:+ to_string (Z.of_nat j) +:+ "_r2").
    change (("op" +:+ to_string (Z.of_nat j)) +:+ "_imm")
      with ("op" +:+ to_string (Z.of_nat j) +:+ "_imm").
    rewrite Lop, L1, L2, Li, (wrap_small _ Himm).
    destruct insn as [op a1 a2 ai av].
    cbn [insn_opcode insn_r1 insn_r2 insn_isImm insn_imm] in *.
    unfold decode, in_range, LAST, CMPEQ, AND, SUB in *.
    destruct Hr2 as [(-> & ->)|(-> & Hr2 & ->)].
    + replace ((0 <=? op) && (op <=? 2)) with true by (symmetry; zcases).
      replace ((0 <=? a1) && (a1 <=? Z.of_nat j)) with true by (symmetry; zcases).
      reflexivity.
    + replace ((0 <=? op) && (op <=? 2)) with true by (symmetry; zcases).
      replace ((0 <=? a1) && (a1 <=? Z.of_nat j)) with true by (symmetry; zcases).
      replace ((0 <=? a2) && (a2 <=? Z.of_nat j)) with true by (symmetry; zcases).
      reflexivity.
  - exact I.
  - unfold selectors_fit, slot, newSymbolicInsn. cbn [opcode r1 r2 int_denote].
    change (("op" +:+ to_string (Z.of_nat j)) +:+ "_op")
      with ("op" +:+ to_string (Z.of_nat j) +:+ "_op").
    change (("op" +:+ to_string (Z.of_nat j)) +:+ "_r1")
      with ("op" +:+ to_string (Z.of_nat j) +:+ "_r1").
    change (("op" +:+ to_string (Z.of_nat j)) +:+ "_r2")
      with ("op" +:+ to_string (Z.of_nat j) +:+ "_r2").
    rewrite Lop, L1, L2. unfold fits_int, SUB, AND, CMPEQ in *. rewrite HM, Hmin.
    repeat split.
    + zcases.
    + zcases.
    + destruct Hr2 as [(-> & _)|(-> & Hr2 & _)]; zcases.
Qed.

Lemma reconstructProgram_loop_exact m program : forall (k : nat) acc,
  (forall j insn, program !! j = Some insn ->
     reconstructInsn m (slot (k + j)) (Z.of_nat (k + j)) = Ok insn) ->
  reconstructProgram_loop m (map slot (seq k (length program))) (Z.of_nat k) acc =
  Ok (acc ++ program).
Proof.
  induction program as [|insn rest IH]; intros k acc H.
  - cbn. now rewrite app_nil_r.
  - cbn [length seq map reconstructProgram_loop].
    pose proof (H 0%nat insn eq_refl) as H0. rewrite Nat.add_0_r in H0.
    rewrite H0. cbn [mbind result_bind].
    replace (Z.of_nat k + 1) with (Z.of_nat (S k)) by lia.
    rewrite IH.
    + now rewrite <- app_assoc.
    + intros j insn' Hj. replace (S k + j)%nat with (k + S j)%nat by lia.
      now apply H.
Qed.

Lemma reconstructProgram_encode_eq (program : list Insn) :
  Z.of_nat (length program) <= INT_MAX ->
  (forall j insn, program !! j = Some insn ->
     well_formed insn (Z.of_nat j) /\ 0 <= insn_imm insn < modulus) ->
  reconstructProgram (fst (makeInsns (Z.of_nat (length program)))) (encode program)
  = Ok program.
Proof.
  intros Hlen Hwf. rewrite makeInsns_eq. cbn [fst]. unfold reconstructProgram.
  change 0 with (Z.of_nat 0). rewrite reconstructProgram_loop_exact; [reflexivity|].
  intros j insn Hj. cbn [Nat.add]. destruct (Hwf j insn Hj) as (Hw & Hi).
  apply reconstructInsn_encode; try assumption.
  apply lookup_lt_Some in Hj. lia.
Qed.

(** Every well-formed program is decoded from some model.  For a
    program of at most [INT_MAX] instructions in which instruction [j]
    has an opcode of the enumeration, a first source in [[0..j]], and
    either an immediate that is a register value (with [r2 = 0]) or a
    second source in [[0..j]] (with [imm = 0]), [reconstructProgram]
    returns the program itself from the model that gives each variable
    the field it stands for, with -1 as [r2] for an immediate. *)
Theorem reconstructProgram_encode (program : list Insn) :
  Z.of_nat (length program) <= INT_MAX ->
  (forall j insn, program !! j = Some insn ->
     well_formed insn (Z.of_nat j) /\ 0 <= insn_imm insn < modulus) ->
  reconstructProgram (fst (makeInsns (Z.of_nat (length program)))) (encode program)
  = Ok program.
Proof. apply reconstructProgram_encode_eq. Qed.

Lemma reconstructProgram_encode_witness :
  Z.of_nat (length final_program) <= INT_MAX /\
  (forall j insn, final_program !! j = Some insn ->
     well_formed insn (Z.of_nat j) /\ 0 <= insn_imm insn < modulus) /\
  reconstructProgram (fst (makeInsns (Z.of_nat (length final_program))))
    (encode final_program) = Ok final_program.
Proof.
  assert (H1 : Z.of_nat (length final_program) <= INT_MAX)
    by (vm_compute; discriminate).
  assert (H2 : forall j insn, final_program !! j = Some insn ->
     well_formed insn (Z.of_nat j) /\ 0 <= insn_imm insn < modulus).
  { assert (Hm : 1 < modulus) by reflexivity.
    intros [|[|[|j]]] insn H; cbn in H; try discriminate H; injection H as <-;
      unfold well_formed; cbn [insn_opcode insn_r1 insn_r2 insn_isImm insn_imm].
    - split; [|lia]. split; [now left|]. split; [lia|]. left. now split.
    - split; [|lia]. split; [right; now left|]. split; [lia|]. right.
      split; [reflexivity|]. split; [lia|reflexivity].
    - split; [|lia]. split; [right; now right|]. split; [lia|]. left. now split. }
  split; [exact H1|]. split; [exact H2|].
  exact (reconstructProgram_encode final_program H1 H2).
Defined.

(** ** The shortest program *)

Section Minimal.

Variable solver_check : list bool_expr -> check_result.
Variable cesolver_check : list bool_expr -> check_result.

(** The search moves to the next number of instructions only when the
    synthesis solver answers [unsat]. *)
Lemma iteration_NextSize N tests :
  iteration solver_check cesolver_check N tests = Ok NextSize ->
  solver_check (snd (makeInsns N) ++ map (testAssertion (fst (makeInsns N))) tests)
  = unsat.
Proof.
  unfold iteration. destruct (makeInsns N) as [insns constraints]. cbn [fst snd].
  rewrite testAssertions_eq. cbn [mbind result_bind]. fold (testAssertion insns).
  destruct (solver_check _) as [m| |]; [|reflexivity|discriminate].
  destruct (reconstructProgram insns m) as [program| |]; try discriminate.
  cbn [mbind result_bind].
  destruct (printProgram program 0) as [lines| |]; try discriminate.
  cbn [mbind result_bind].
  destruct (cesolver_check _) as [cm| |]; try discriminate.
  destruct (get_numeral_uint64 (model_eval cm x_const)) as [t'| |];
    cbn [mbind result_bind]; [|discriminate|discriminate].
  destruct (get_numeral_uint64 (model_eval cm (model_eval m (eval x_const insns))))
    as [?| |]; cbn [mbind result_bind]; [|discriminate|discriminate].
  destruct (get_numeral_uint64 (simplify (targetProgram (bvConst t')))) as [?| |];
    cbn [mbind result_bind]; discriminate.
Qed.

(** In a state that [main] reaches, every smaller number of instructions
    was given up on an [unsat] answer for test cases that are still
    there. *)
Lemma reachable_smaller N tests :
  reachable solver_check cesolver_check N tests ->
  forall N', 1 <= N' < N ->
  exists tests' rest,
    tests = tests' ++ rest /\
    solver_check (snd (makeInsns N') ++ map (testAssertion (fst (makeInsns N'))) tests')
    = unsat.
Proof.
  induction 1 as [|N tests _ IH Hit|N tests t _ IH Hit]; intros N' HN'.
  - lia.
  - destruct (Z.eq_dec N' N) as [->|Hne].
    + exists tests, []. split; [now rewrite app_nil_r|]. now apply iteration_NextSize.
    + apply IH. lia.
  - destruct (IH N' HN') as (tests' & rest & -> & Hunsat).
    exists tests', (rest ++ [t]). split; [now rewrite app_assoc|assumption].
Qed.

End Minimal.

Lemma forallb_false {A} (f : A -> bool) l :
  forallb f l = false -> exists a, In a l /\ f a = false.
Proof.
  induction l as [|a l IH]; [discriminate|]. cbn [forallb].
  destruct (f a) eqn:E; [|exists a; split; [now left|assumption]].
  intros H. destruct (IH H) as (b & Hb & Hf). exists b. split; [now right|assumption].
Qed.

Lemma encode_imm program j insn :
  program !! j = Some insn ->
  bv_denote (complete (encode program)) (imm (slot j)) = wrap (insn_imm insn).
Proof.
  intros Hj. unfold slot, newSymbolicInsn. cbn [imm bv_denote]. f_equal.
  unfold complete, override.
  rewrite (encode_lookup program j insn _ (insn_imm insn) Hj); [reflexivity|].
  cbn. tauto.
Qed.

(** The model of a program whose immediates are below [0xff] satisfies
    the constraints of [makeInsns]. *)
Lemma encode_holds program :
  (forall j insn, program !! j = Some insn -> 0 <= insn_imm insn < 0xff) ->
  holds (complete (encode program))
    (snd (makeInsns (Z.of_nat (length program)))) = true.
Proof.
  intros Himm. rewrite makeInsns_eq. cbn [snd]. unfold holds.
  apply forallb_forall. intros c Hc.
  apply in_map_iff in Hc as (sym & <- & Hsym).
  apply in_map_iff in Hsym as (j & <- & Hj). apply in_seq in Hj.
  destruct (lookup_lt_is_Some_2 program j ltac:(lia)) as (insn & Hinsn).
  cbn [bool_denote]. rewrite (encode_imm program j insn Hinsn).
  pose proof (Himm j insn Hinsn) as Hi.
  assert (Hm : 0xff < modulus) by reflexivity.
  rewrite wrap_small by lia. cbn [bv_denote]. change (wrap 255) with 255.
  apply Z.ltb_lt. lia.
Qed.

(** No shorter program passes the test cases.  When the [unsat]
    answers of the synthesis solver are right, then in every state that
    [main] reaches, with [N] instructions to try, every well-formed
    program of at least one and fewer than [N] instructions, with
    immediates below [0xff], gives on one of the test cases a value
    that is not the target's. *)
Theorem search_minimal (solver_check cesolver_check : list bool_expr -> check_result)
    (N : Z) (tests : list Z) (program : list Insn) :
  unsat_sound solver_check ->
  reachable solver_check cesolver_check N tests ->
  1 <= Z.of_nat (length program) < N ->
  Z.of_nat (length program) <= INT_MAX ->
  (forall j insn, program !! j = Some insn ->
     well_formed insn (Z.of_nat j) /\ 0 <= insn_imm insn < 0xff) ->
  exists t, In t tests /\ Evaluator_concrete t program <> target_value t.
Proof.
  intros Hsound Hreach Hlen Hmax Hwf.
  destruct (reachable_smaller _ _ N tests Hreach _ Hlen)
    as (tests' & rest & -> & Hunsat).
  set (insns := fst (makeInsns (Z.of_nat (length program)))) in *.
  set (rho := complete (encode program)).
  pose proof (Hsound _ Hunsat rho) as Hfalse.
  unfold holds in Hfalse. rewrite forallb_app in Hfalse.
  assert (Hc : forallb (bool_denote rho)
                 (snd (makeInsns (Z.of_nat (length program)))) = true).
  { apply encode_holds. intros j insn Hj. now apply (Hwf j insn). }
  rewrite Hc in Hfalse. cbn [andb] in Hfalse.
  apply forallb_false in Hfalse as (c & Hin & Hden).
  apply in_map_iff in Hin as (t & <- & Ht).
  exists t. split; [apply in_app_iff; now left|].
  unfold testAssertion in Hden. cbn [bool_denote bv_denote bvConst] in Hden.
  apply Z.eqb_neq in Hden. intros Heq. apply Hden.
  rewrite (wrap_small (target_value t)) by apply target_value_range.
  rewrite <- Heq, <- Evaluator_concrete_wrap.
  change (wrap t) with (bv_denote rho (bvConst t)). symmetry.
  apply (Evaluator_concrete_eval rho (encode program)).
  - apply makeInsns_reads_as. reflexivity.
  - apply reconstructProgram_encode_eq; [assumption|].
    intros j insn Hj. destruct (Hwf j insn Hj) as (Hw & Hi). split; [assumption|].
    assert (Hm : 0xff < modulus) by reflexivity. lia.
Qed.

Lemma script_inv answers q r :
  script answers q = r -> r = unknown \/ In (q, r) answers.
Proof.
  unfold script. destruct (find _ answers) as [[q' r']|] eqn:E; intros <-; [|now left].
  right. apply find_some in E as [Hin Heq]. cbn [fst] in Heq.
  apply query_eqb_eq in Heq. subst q'. exact Hin.
Qed.

(** The value of the one-instruction expression. *)
Lemma eval_one rho x :
  bv_denote rho (eval x (fst (makeInsns 1))) =
  eval_op (rho "op0_op") (bv_denote rho x)
    (if rho "op0_r2" =? 0 then bv_denote rho x else wrap (rho "op0_imm")).
Proof.
  change (eval x (fst (makeInsns 1)))
    with (dispatch (int_const "op0_op") x
            (bv_ite (int_eq (int_const "op0_r2") (int_val 0)) x (bv_const "op0_imm"))).
  rewrite dispatch_denote. reflexivity.
Qed.

(** No instruction maps 0 and 1 to 1 and 3 to 0 with an immediate below
    [0xff]. *)
Lemma short_query_unsat rho : holds rho (short_query [0; 1; 3]) = false.
Proof.
  unfold short_query, holds.
  let c := eval vm_compute in (snd (makeInsns 1)) in
  change (snd (makeInsns 1)) with c.
  cbn [map app forallb].
  unfold testAssertion. cbn [bool_denote]. rewrite !eval_one.
  change (target_value 0) with 1. change (target_value 1) with 1.
  change (target_value 3) with 0.
  cbn [bv_denote bvConst imm slot newSymbolicInsn].
  change (wrap 0) with 0. change (wrap 1) with 1. change (wrap 3) with 3.
  change (wrap 255) with 255.
  pose proof (wrap_range (rho "op0_imm")) as Hi.
  unfold modulus in Hi.
  set (i := wrap (rho "op0_imm")) in *. clearbody i.
  apply not_true_is_false. intros H.
  apply andb_true_iff in H as [H0 H]. apply andb_true_iff in H as [H1 H].
  apply andb_true_iff in H as [H2 H]. apply andb_true_iff in H as [H3 _].
  apply Z.ltb_lt in H0. apply Z.eqb_eq in H1, H2, H3.
  unfold eval_op in H1, H2, H3.
  destruct (rho "op0_r2" =? 0), (rho "op0_op" =? AND), (rho "op0_op" =? CMPEQ);
    try discriminate H1; try discriminate H3;
    try (rewrite Z.land_0_l in H1; discriminate H1).
  - destruct (Z.eqb_spec 0 i), (Z.eqb_spec 1 i); try discriminate; lia.
  - unfold wrap, modulus in H1. change (2 ^ REGISTER_WIDTH) with 4294967296 in *.
    Z.to_euclidean_division_equations. lia.
Qed.

Lemma short_unsat_sound : unsat_sound short_solver.
Proof.
  intros q Hq rho. apply script_inv in Hq as [Hq|Hq]; [discriminate Hq|].
  destruct Hq as [Hq|[Hq|[Hq|[Hq|[]]]]]; try discriminate Hq.
  injection Hq as <-. apply short_query_unsat.
Qed.

Lemma short_reachable : reachable short_solver short_cesolver 2 [0; 1; 3].
Proof.
  apply (reachable_size _ _ 1 [0; 1; 3]); [|vm_compute; reflexivity].
  apply (reachable_test _ _ 1 [0; 1] 3); [|vm_compute; reflexivity].
  apply (reachable_test _ _ 1 [0] 1); [|vm_compute; reflexivity].
  apply (reachable_test _ _ 1 [] 0); [|vm_compute; reflexivity].
  apply reachable_start.
Qed.

Lemma search_minimal_witness :
  unsat_sound short_solver /\
  reachable short_solver short_cesolver 2 [0; 1; 3] /\
  exists t, In t [0; 1; 3] /\
    Evaluator_concrete t [mkInsn CMPEQ 0 0 true 0] <> target_value t.
Proof.
  split; [exact short_unsat_sound|]. split; [exact short_reachable|].
  apply (search_minimal short_solver short_cesolver 2 [0; 1; 3]
           [mkInsn CMPEQ 0 0 true 0] short_unsat_sound short_reachable).
  - cbn. lia.
  - vm_compute. discriminate.
  - intros [|j] insn H; cbn in H; [|discriminate H]. injection H as <-.
    unfold well_formed. cbn [insn_opcode insn_r1 insn_r2 insn_isImm insn_imm].
    split; [|lia]. split; [right; now right|]. split; [lia|]. left. now split.
Defined.

(** ** The meaning of the test assertions *)

(** The loop that adds the test cases to the solver never throws, adds
    one assertion per test case, and under every assignment of the
    variables the assertions hold exactly when the expression of the
    symbolic program has, at each test case, the value of the target
    there. *)
Theorem testAssertions_denote (insns : list SymbolicInsn) (testCases : list Z)
    (rho : assignment) :
  exists assertions,
    testAssertions insns testCases = Ok assertions /\
    length assertions = length testCases /\
    (holds rho assertions = true <->
     forall t, In t testCases ->
       bv_denote rho (eval (bvConst t) insns) = target_value t).
Proof.
  rewrite testAssertions_eq. eexists. split; [reflexivity|].
  split; [apply length_map|].
  unfold holds. rewrite forallb_forall. split.
  - intros H t Ht.
    specialize (H _ (in_map _ _ _ Ht)). cbn [bool_denote bv_denote bvConst] in H.
    apply Z.eqb_eq in H. rewrite H. apply wrap_small, target_value_range.
  - intros H c Hc. apply in_map_iff in Hc as (t & <- & Ht).
    cbn [bool_denote bv_denote bvConst]. apply Z.eqb_eq.
    rewrite (H t Ht). symmetry. apply wrap_small, target_value_range.
Qed.

Lemma short_cesolver_complete : sat_complete short_cesolver.
Proof.
  intros q cm Hq. apply script_inv in Hq as [Hq|Hq]; [discriminate Hq|].
  destruct Hq as [Hq|[Hq|[Hq|[]]]]; injection Hq as <- <-; intros s Hs;
    vm_compute in Hs;
    repeat (destruct Hs as [<-|Hs]; [eexists; vm_compute; reflexivity|]);
    destruct Hs.
Qed.

Lemma main_outcome_witness :
  sat_complete short_cesolver /\
  main short_solver short_cesolver 5 =
    Some (Exit 0 [] (Some "unexpected check value")) /\
  (main short_solver short_cesolver 5 = None \/
   (exists stdout,
      main short_solver short_cesolver 5 = Some (Exit 0 stdout None)) \/
   (exists msg, In msg messages /\
      main short_solver short_cesolver 5 = Some (Exit 0 [] (Some msg)))).
Proof.
  split; [exact short_cesolver_complete|].
  split; [vm_compute; reflexivity|].
  exact (main_outcome short_solver short_cesolver 5 short_cesolver_complete).
Defined.

(** ** The decoded program and the expression *)

(** Whenever the decoder returns a program, running it is evaluating
    the expression of [eval].  For the symbolic instructions of
    [makeInsns(N)], a model and an assignment that gives the variables
    of the instructions the model's values, 0 for those the model
    leaves out, the expression that [eval] builds for an input
    expression has, under the assignment, the value that the program
    decoded from the model computes from the value of the input. *)
Theorem eval_agrees_with_decoded_program (N : Z) (m : model) (rho : assignment)
    (x : bv_expr) (program : list Insn) :
  (forall s, In s (flat_map insn_names (fst (makeInsns N))) -> rho s = complete m s) ->
  reconstructProgram (fst (makeInsns N)) m = Ok program ->
  bv_denote rho (eval x (fst (makeInsns N))) =
  Evaluator_concrete (bv_denote rho x) program.
Proof.
  intros Hrho Hprog. symmetry.
  apply (Evaluator_concrete_eval rho m (fst (makeInsns N)) x program); [|assumption].
  now apply makeInsns_reads_as.
Qed.

Lemma eval_agrees_with_decoded_program_witness :
  (forall s, In s (flat_map insn_names (fst (makeInsns 3))) ->
     complete final_model s = complete final_model s) /\
  reconstructProgram (fst (makeInsns 3)) final_model = Ok final_program /\
  bv_denote (complete final_model) (eval (bvConst 8) (fst (makeInsns 3))) =
    Evaluator_concrete (bv_denote (complete final_model) (bvConst 8)) final_program.
Proof.
  assert (H1 : forall s, In s (flat_map insn_names (fst (makeInsns 3))) ->
     complete final_model s = complete final_model s) by reflexivity.
  assert (H2 : reconstructProgram (fst (makeInsns 3)) final_model = Ok final_program)
    by (vm_compute; reflexivity).
  split; [exact H1|]. split; [exact H2|].
  exact (eval_agrees_with_decoded_program 3 final_model (complete final_model)
           (bvConst 8) final_program H1 H2).
Defined.

(** ** A counterexample and the decoded candidate *)






